(** * Gaana stream-path decoding: a shallow embedding of [src/utils/crypto.ts]

    The development follows the source file top to bottom:

    - [JS]        the JavaScript string primitives the code calls
                  ([parseInt], [substring], [trim], [includes], [indexOf]);
    - [Base64]    [Buffer.from(s, 'base64')], Node's lenient decoder;
    - [AES]       AES-128 (FIPS-197) and the CBC decipher object with
                  automatic padding switched off ([update] / [final]);
    - [Utf8]      [Buffer.prototype.toString('utf8')];
    - [Crypto]    the three exported functions [decryptStreamPath],
                  [fetchStreamUrl] and [getMediaUrls];
    - [Reference] the encoder of the round-trip property;
    - [Spec]      the vocabulary of the specification (failure kinds);
    - [Samples]   concrete fields.

    The definitions come first, the lemmas and the theorems after them.

    Strings are sequences of UTF-16 code units, buffers are lists of bytes.
    [console.warn] is modelled by the list of warnings a call emits, a
    JavaScript exception by the [Throw] completion, and the network by a
    transport function handed to the resolver, whose calls are recorded. *)

From Stdlib Require Import List NArith ZArith Bool Lia String Ascii Btauto.
From Stdlib Require Import Strings.Byte.
Import ListNotations.

Local Open Scope N_scope.

(* ================================================================== *)
(** * Bytes *)

Module Bytes.

Definition byte := Byte.byte.

Definition code (b : byte) : N := Byte.to_N b.

(** Truncating conversion, as a store into a [Uint8Array] does. *)
Definition of_N (n : N) : byte :=
  match Byte.of_N (n mod 256) with
  | Some b => b
  | None => x00
  end.

(** The eight bits of a byte, low bit first. *)
Definition bits : Type :=
  bool * (bool * (bool * (bool * (bool * (bool * (bool * bool)))))).

Definition xor_bits (x y : bits) : bits :=
  let '(a0, (a1, (a2, (a3, (a4, (a5, (a6, a7))))))) := x in
  let '(b0, (b1, (b2, (b3, (b4, (b5, (b6, b7))))))) := y in
  (xorb a0 b0, (xorb a1 b1, (xorb a2 b2, (xorb a3 b3,
  (xorb a4 b4, (xorb a5 b5, (xorb a6 b6, xorb a7 b7))))))).

Definition bxor (a b : byte) : byte :=
  Byte.of_bits (xor_bits (Byte.to_bits a) (Byte.to_bits b)).

Definition all_bytes : list byte :=
  Eval vm_compute in map of_N (map N.of_nat (seq 0 256)).

End Bytes.
Export Bytes.

(* ================================================================== *)
(** * Completions *)

(** A JavaScript call either returns or throws.  The exceptions below are
    the ones the modelled calls can raise. *)
Module Completion.

Inductive exn :=
| ERR_CRYPTO_INVALID_KEYLEN      (* createDecipheriv: key is not 16 bytes *)
| ERR_CRYPTO_INVALID_IV          (* createDecipheriv: IV is not 16 bytes *)
| ERR_WRONG_FINAL_BLOCK_LENGTH   (* decipher.final(): a partial block is left *)
| ERR_TRANSPORT.                 (* fetch rejected, or the body is not the
                                    JSON object the code reads *)

Inductive completion (A : Type) :=
| Normal (a : A)
| Throw (e : exn).

Arguments Normal {A} a.
Arguments Throw {A} e.

End Completion.
Export Completion.

(* ================================================================== *)
(** * JavaScript strings *)

Module JS.

Definition code_unit := N.

(** A string is its sequence of UTF-16 code units. *)
Definition jsstring := list code_unit.

(** An ASCII literal as a JavaScript string. *)
Definition js (s : string) : jsstring :=
  map N_of_ascii (list_ascii_of_string s).

Inductive value :=
| Undefined
| Str (s : jsstring).

(** [s[i]] for [i = 0]: the one-unit string at index 0, [undefined] for
    the empty string. *)
Definition index0 (s : jsstring) : value :=
  match s with
  | [] => Undefined
  | c :: _ => Str [c]
  end.

Definition ToString (v : value) : jsstring :=
  match v with
  | Undefined => js "undefined"
  | Str s => s
  end.

Definition truthy (s : jsstring) : bool :=
  match s with
  | [] => false
  | _ :: _ => true
  end.

(** WhiteSpace and LineTerminator code points of ECMAScript: what [trim]
    and [parseInt] strip. *)
Definition is_white_space (c : code_unit) : bool :=
  ((9 <=? c) && (c <=? 13)) || (c =? 32) || (c =? 0xA0) || (c =? 0x1680)
  || ((0x2000 <=? c) && (c <=? 0x200A)) || (c =? 0x2028) || (c =? 0x2029)
  || (c =? 0x202F) || (c =? 0x205F) || (c =? 0x3000) || (c =? 0xFEFF).

Definition is_digit (c : code_unit) : bool := (48 <=? c) && (c <=? 57).

Fixpoint drop_while (p : code_unit -> bool) (s : jsstring) : jsstring :=
  match s with
  | [] => []
  | c :: s' => if p c then drop_while p s' else s
  end.

Fixpoint take_while (p : code_unit -> bool) (s : jsstring) : jsstring :=
  match s with
  | [] => []
  | c :: s' => if p c then c :: take_while p s' else []
  end.

(** [parseInt(v, 10)]; [None] is NaN.  Leading white space is skipped, one
    sign is read, then the longest run of decimal digits.  (The value is
    exact here; a double is exact up to 2^53, far above the one digit the
    caller passes.) *)
Definition parseInt (v : value) : option Z :=
  let s := drop_while is_white_space (ToString v) in
  let '(sign, s) :=
    match s with
    | c :: r =>
        if c =? 45 then ((-1)%Z, r)        (* '-' *)
        else if c =? 43 then (1%Z, r)      (* '+' *)
        else (1%Z, s)
    | [] => (1%Z, s)
    end in
  match take_while is_digit s with
  | [] => None
  | ds =>
      Some (sign * fold_left (fun acc d => 10 * acc + (Z.of_N d - 48)) ds 0)%Z
  end.

(** [s.substring(start)]: a start below 0 counts as 0, one above the
    length as the length. *)
Definition substring (start : Z) (s : jsstring) : jsstring :=
  skipn (Z.to_nat (Z.max 0 start)) s.

Fixpoint starts_with (pat s : jsstring) : bool :=
  match pat, s with
  | [], _ => true
  | _ :: _, [] => false
  | p :: pat', c :: s' => (p =? c) && starts_with pat' s'
  end.

(** [s.includes(pat)] *)
Fixpoint includes (pat s : jsstring) : bool :=
  starts_with pat s ||
  match s with
  | [] => false
  | _ :: s' => includes pat s'
  end.

Fixpoint indexOf_from (i : Z) (pat s : jsstring) : Z :=
  if starts_with pat s then i
  else match s with
       | [] => (-1)%Z
       | _ :: s' => indexOf_from (i + 1) pat s'
       end.

(** [s.indexOf(pat)]: the first index where [pat] occurs, -1 if none. *)
Definition indexOf (pat s : jsstring) : Z := indexOf_from 0 pat s.

(** [s.replace(/\0/g, '')] *)
Definition remove_nul (s : jsstring) : jsstring :=
  filter (fun c => negb (c =? 0)) s.

Definition trimStart (s : jsstring) : jsstring :=
  drop_while is_white_space s.

Definition trimEnd (s : jsstring) : jsstring :=
  rev (drop_while is_white_space (rev s)).

(** [s.trim()] *)
Definition trim (s : jsstring) : jsstring := trimEnd (trimStart s).

End JS.
Export JS.

(* ================================================================== *)
(** * [Buffer.from(s, 'base64')] *)

(** Node's decoder never fails.  It looks every code unit up by its low
    byte in a table that knows both the standard and the URL-safe alphabet,
    skips what the table does not know, and stops at the first [=]. *)
Module Base64.

Definition unbase64 (c : code_unit) : option N :=
  let x := c mod 256 in
  if (65 <=? x) && (x <=? 90) then Some (x - 65)
  else if (97 <=? x) && (x <=? 122) then Some (x - 71)
  else if (48 <=? x) && (x <=? 57) then Some (x + 4)
  else if (x =? 43) || (x =? 45) then Some 62
  else if (x =? 47) || (x =? 95) then Some 63
  else None.

(** The six-bit values of the legal characters before the first [=]. *)
Fixpoint sextets (s : jsstring) : list N :=
  match s with
  | [] => []
  | c :: s' =>
      match unbase64 c with
      | Some v => v :: sextets s'
      | None => if c mod 256 =? 61 then [] else sextets s'
      end
  end.

Definition byte1 (a b : N) : byte := Bytes.of_N (a * 4 + b / 16).
Definition byte2 (b c : N) : byte := Bytes.of_N ((b mod 16) * 16 + c / 4).
Definition byte3 (c d : N) : byte := Bytes.of_N ((c mod 4) * 64 + d).

(** Four values give three bytes; a last group of two or three gives one
    or two; a single left-over value gives nothing. *)
Fixpoint pack (l : list N) : list byte :=
  match l with
  | a :: b :: c :: d :: rest =>
      byte1 a b :: byte2 b c :: byte3 c d :: pack rest
  | [a; b; c] => [byte1 a b; byte2 b c]
  | [a; b] => [byte1 a b]
  | _ => []
  end.

Definition from_base64 (s : jsstring) : list byte := pack (sextets s).

End Base64.

(* ================================================================== *)
(** * AES-128 and the CBC decipher *)

Module AES.

(** ** Arithmetic of GF(2^8) modulo x^8 + x^4 + x^3 + x + 1 *)

(** Multiplication by x: shift left, and reduce by 0x1b when bit 7 falls
    out. *)
Definition xtime_bits (x : bits) : bits :=
  let '(a0, (a1, (a2, (a3, (a4, (a5, (a6, a7))))))) := x in
  (a7, (xorb a0 a7, (a1, (xorb a2 a7, (xorb a3 a7, (a4, (a5, a6))))))).

Definition xtime (a : byte) : byte :=
  Byte.of_bits (xtime_bits (Byte.to_bits a)).

(** Multiplication of [a] by the polynomial whose coefficients are the
    bits of [b], low bit first. *)
Definition gmul (a b : byte) : byte :=
  let '(b0, (b1, (b2, (b3, (b4, (b5, (b6, b7))))))) := Byte.to_bits b in
  let t (c : bool) (x : byte) := if c then x else x00 in
  let a1 := xtime a in
  let a2 := xtime a1 in
  let a3 := xtime a2 in
  let a4 := xtime a3 in
  let a5 := xtime a4 in
  let a6 := xtime a5 in
  let a7 := xtime a6 in
  bxor (t b0 a) (bxor (t b1 a1) (bxor (t b2 a2) (bxor (t b3 a3)
    (bxor (t b4 a4) (bxor (t b5 a5) (bxor (t b6 a6) (t b7 a7))))))).

Definition gsquare (a : byte) : byte := gmul a a.

(** The multiplicative inverse is a^254 (and 0 for 0). *)
Definition ginv (a : byte) : byte :=
  let a2 := gsquare a in
  let a4 := gsquare a2 in
  let a8 := gsquare a4 in
  let a16 := gsquare a8 in
  let a32 := gsquare a16 in
  let a64 := gsquare a32 in
  let a128 := gsquare a64 in
  gmul a128 (gmul a64 (gmul a32 (gmul a16 (gmul a8 (gmul a4 a2))))).

(** The affine map of SubBytes, constant 0x63. *)
Definition affine (a : byte) : byte :=
  let '(a0, (a1, (a2, (a3, (a4, (a5, (a6, a7))))))) := Byte.to_bits a in
  let f (x y z u v : bool) (c : bool) :=
    xorb x (xorb y (xorb z (xorb u (xorb v c)))) in
  Byte.of_bits
    (f a0 a4 a5 a6 a7 true,
    (f a1 a5 a6 a7 a0 true,
    (f a2 a6 a7 a0 a1 false,
    (f a3 a7 a0 a1 a2 false,
    (f a4 a0 a1 a2 a3 false,
    (f a5 a1 a2 a3 a4 true,
    (f a6 a2 a3 a4 a5 true,
     f a7 a3 a4 a5 a6 false))))))).

Definition sbox_table : list byte :=
  Eval vm_compute in map (fun a => affine (ginv a)) all_bytes.

Definition inv_sbox_table : list byte :=
  Eval vm_compute in
    map (fun y =>
           match find (fun a => Byte.eqb (affine (ginv a)) y) all_bytes with
           | Some a => a
           | None => x00
           end) all_bytes.

Definition lookup (t : list byte) (a : byte) : byte :=
  nth (Byte.to_nat a) t x00.

Definition sbox (a : byte) : byte := lookup sbox_table a.
Definition inv_sbox (a : byte) : byte := lookup inv_sbox_table a.

(** ** The state: four columns of four bytes *)

Definition word : Type := byte * byte * byte * byte.
Definition state : Type := word * word * word * word.

Definition wmap (f : byte -> byte) (w : word) : word :=
  let '(a, b, c, d) := w in (f a, f b, f c, f d).

Definition wxor (v w : word) : word :=
  let '(a, b, c, d) := v in
  let '(a', b', c', d') := w in
  (bxor a a', bxor b b', bxor c c', bxor d d').

Definition smap (f : word -> word) (s : state) : state :=
  let '(a, b, c, d) := s in (f a, f b, f c, f d).

Definition AddRoundKey (k s : state) : state :=
  let '(a, b, c, d) := s in
  let '(ka, kb, kc, kd) := k in
  (wxor a ka, wxor b kb, wxor c kc, wxor d kd).

Definition SubBytes : state -> state := smap (wmap sbox).
Definition InvSubBytes : state -> state := smap (wmap inv_sbox).

(** Row r of the state is rotated left by r columns. *)
Definition ShiftRows (s : state) : state :=
  let '((a0, a1, a2, a3), (b0, b1, b2, b3),
        (c0, c1, c2, c3), (d0, d1, d2, d3)) := s in
  ((a0, b1, c2, d3), (b0, c1, d2, a3), (c0, d1, a2, b3), (d0, a1, b2, c3)).

Definition InvShiftRows (s : state) : state :=
  let '((a0, a1, a2, a3), (b0, b1, b2, b3),
        (c0, c1, c2, c3), (d0, d1, d2, d3)) := s in
  ((a0, d1, c2, b3), (b0, a1, d2, c3), (c0, b1, a2, d3), (d0, c1, b2, a3)).

Definition m2 (a : byte) : byte := xtime a.
Definition m3 (a : byte) : byte := bxor (xtime a) a.
Definition m9 (a : byte) : byte := bxor (xtime (xtime (xtime a))) a.
Definition m11 (a : byte) : byte :=
  bxor (xtime (xtime (xtime a))) (bxor (xtime a) a).
Definition m13 (a : byte) : byte :=
  bxor (xtime (xtime (xtime a))) (bxor (xtime (xtime a)) a).
Definition m14 (a : byte) : byte :=
  bxor (xtime (xtime (xtime a))) (bxor (xtime (xtime a)) (xtime a)).

Definition xor4 (a b c d : byte) : byte := bxor (bxor a b) (bxor c d).

Definition mix_column (w : word) : word :=
  let '(a, b, c, d) := w in
  (xor4 (m2 a) (m3 b) c d,
   xor4 a (m2 b) (m3 c) d,
   xor4 a b (m2 c) (m3 d),
   xor4 (m3 a) b c (m2 d)).

Definition inv_mix_column (w : word) : word :=
  let '(a, b, c, d) := w in
  (xor4 (m14 a) (m11 b) (m13 c) (m9 d),
   xor4 (m9 a) (m14 b) (m11 c) (m13 d),
   xor4 (m13 a) (m9 b) (m14 c) (m11 d),
   xor4 (m11 a) (m13 b) (m9 c) (m14 d)).

Definition MixColumns : state -> state := smap mix_column.
Definition InvMixColumns : state -> state := smap inv_mix_column.

(** ** Key expansion *)

Definition RotWord (w : word) : word :=
  let '(a, b, c, d) := w in (b, c, d, a).

Definition SubWord : word -> word := wmap sbox.

Definition next_round_key (rcon : byte) (k : state) : state :=
  let '(w0, w1, w2, w3) := k in
  let t := wxor (SubWord (RotWord w3)) (rcon, x00, x00, x00) in
  let v0 := wxor w0 t in
  let v1 := wxor w1 v0 in
  let v2 := wxor w2 v1 in
  let v3 := wxor w3 v2 in
  (v0, v1, v2, v3).

(** The round keys 1..n that follow [k], with round constants
    [rcon], [x * rcon], ... *)
Fixpoint expand (n : nat) (rcon : byte) (k : state) : list state :=
  match n with
  | O => []
  | S n' =>
      let k' := next_round_key rcon k in
      k' :: expand n' (xtime rcon) k'
  end.

Record key_schedule := KeySchedule {
  first_key : state;
  middle_keys : list state;
  last_key : state
}.

Definition KeyExpansion (k : state) : key_schedule :=
  let ks := expand 10 x01 k in
  {| first_key := k;
     middle_keys := firstn 9 ks;
     last_key := nth 9 ks k |}.

(** ** Cipher and inverse cipher (FIPS-197, figures 5 and 12) *)

Definition round (s k : state) : state :=
  AddRoundKey k (MixColumns (ShiftRows (SubBytes s))).

Definition inv_round (k s : state) : state :=
  InvMixColumns (AddRoundKey k (InvSubBytes (InvShiftRows s))).

Definition Cipher (ks : key_schedule) (s : state) : state :=
  let s1 := fold_left round (middle_keys ks) (AddRoundKey (first_key ks) s) in
  AddRoundKey (last_key ks) (ShiftRows (SubBytes s1)).

Definition InvCipher (ks : key_schedule) (s : state) : state :=
  let s1 := fold_right inv_round (AddRoundKey (last_key ks) s)
              (middle_keys ks) in
  AddRoundKey (first_key ks) (InvSubBytes (InvShiftRows s1)).

(** ** Blocks as byte sequences *)

Definition word_bytes (w : word) : list byte :=
  let '(a, b, c, d) := w in [a; b; c; d].

Definition state_bytes (s : state) : list byte :=
  let '(a, b, c, d) := s in
  word_bytes a ++ word_bytes b ++ word_bytes c ++ word_bytes d.

(** The first sixteen bytes of a buffer as a state, with the rest; [None]
    when fewer than sixteen bytes are left. *)
Definition take_block (l : list byte) : option (state * list byte) :=
  match l with
  | a0 :: a1 :: a2 :: a3 :: b0 :: b1 :: b2 :: b3 ::
    c0 :: c1 :: c2 :: c3 :: d0 :: d1 :: d2 :: d3 :: rest =>
      Some (((a0, a1, a2, a3), (b0, b1, b2, b3),
             (c0, c1, c2, c3), (d0, d1, d2, d3)), rest)
  | _ => None
  end.

Definition zero_word : word := (x00, x00, x00, x00).
Definition zero_state : state := (zero_word, zero_word, zero_word, zero_word).

Definition block_of (l : list byte) : state :=
  match take_block l with
  | Some (s, _) => s
  | None => zero_state
  end.

(** ** The decipher object, CBC mode, automatic padding off *)

Record decipher := Decipher {
  schedule : key_schedule;
  chain : state;            (* the IV, then the last ciphertext block *)
  pending : list byte       (* bytes that do not fill a block yet *)
}.

Definition createDecipheriv (key iv : list byte) : completion decipher :=
  match take_block key with
  | Some (k, []) =>
      match take_block iv with
      | Some (v, []) =>
          Normal {| schedule := KeyExpansion k; chain := v; pending := [] |}
      | _ => Throw ERR_CRYPTO_INVALID_IV
      end
  | _ => Throw ERR_CRYPTO_INVALID_KEYLEN
  end.

(** Every complete block is deciphered and xored with the block before
    it; what is left at the end is returned with the new chaining value. *)
Fixpoint cbc_decrypt (ks : key_schedule) (prev : state) (l : list byte)
  : list byte * state * list byte :=
  match l with
  | a0 :: a1 :: a2 :: a3 :: b0 :: b1 :: b2 :: b3 ::
    c0 :: c1 :: c2 :: c3 :: d0 :: d1 :: d2 :: d3 :: rest =>
      let c := ((a0, a1, a2, a3), (b0, b1, b2, b3),
                (c0, c1, c2, c3), (d0, d1, d2, d3)) in
      let '(out, chn, tail) := cbc_decrypt ks c rest in
      (state_bytes (AddRoundKey prev (InvCipher ks c)) ++ out, chn, tail)
  | _ => ([], prev, l)
  end.

(** [decipher.update(data)] *)
Definition update (d : decipher) (data : list byte) : list byte * decipher :=
  let '(out, chn, tail) :=
    cbc_decrypt (schedule d) (chain d) (pending d ++ data) in
  (out, {| schedule := schedule d; chain := chn; pending := tail |}).

(** [decipher.final()]: with padding off there is nothing to strip; a
    partial block is an error. *)
Definition final (d : decipher) : completion (list byte) :=
  match pending d with
  | [] => Normal []
  | _ :: _ => Throw ERR_WRONG_FINAL_BLOCK_LENGTH
  end.

End AES.

(* ================================================================== *)
(** * [buf.toString('utf8')] *)

(** The UTF-8 decoder of the WHATWG Encoding Standard, which V8 follows: an
    ill-formed sequence becomes U+FFFD and the byte that broke it is read
    again as a lead byte.  A code point above U+FFFF becomes a surrogate
    pair. *)
Module Utf8.

Inductive pending :=
| Idle
| Cont (cp : N) (more : nat) (lower upper : N).
    (* [more] continuation bytes are needed after the next one *)

Definition emit (cp : N) : jsstring :=
  if cp <? 0x10000 then [cp]
  else [0xD800 + (cp - 0x10000) / 1024; 0xDC00 + (cp - 0x10000) mod 1024].

Definition lead (b : N) : jsstring * pending :=
  if b <=? 0x7F then ([b], Idle)
  else if (0xC2 <=? b) && (b <=? 0xDF) then
    ([], Cont (b mod 32) 0 0x80 0xBF)
  else if (0xE0 <=? b) && (b <=? 0xEF) then
    ([], Cont (b mod 16) 1 (if b =? 0xE0 then 0xA0 else 0x80)
                           (if b =? 0xED then 0x9F else 0xBF))
  else if (0xF0 <=? b) && (b <=? 0xF4) then
    ([], Cont (b mod 8) 2 (if b =? 0xF0 then 0x90 else 0x80)
                          (if b =? 0xF4 then 0x8F else 0xBF))
  else ([0xFFFD], Idle).

Fixpoint decode_from (st : pending) (bs : list byte) : jsstring :=
  match bs with
  | [] =>
      match st with
      | Idle => []
      | Cont _ _ _ _ => [0xFFFD]
      end
  | b :: bs' =>
      let n := code b in
      match st with
      | Idle => let '(out, st') := lead n in out ++ decode_from st' bs'
      | Cont cp more lower upper =>
          if (lower <=? n) && (n <=? upper) then
            let cp' := cp * 64 + n mod 64 in
            match more with
            | O => emit cp' ++ decode_from Idle bs'
            | S more' => decode_from (Cont cp' more' 0x80 0xBF) bs'
            end
          else
            let '(out, st') := lead n in
            0xFFFD :: out ++ decode_from st' bs'
      end
  end.

Definition toString (bs : list byte) : jsstring := decode_from Idle bs.

(** What holds of a sequence in progress: the next byte must be a
    continuation byte, and the code point being built will not be below
    U+0080 ([floor] is the least value the part read so far can have). *)
Definition floor (more : nat) : N :=
  match more with
  | 0%nat => 128
  | 1%nat => 2
  | _ => 1
  end.

Definition in_progress (st : pending) : Prop :=
  match st with
  | Idle => True
  | Cont cp more lower upper =>
      128 <= lower /\ upper <= 191 /\ floor more <= cp * 64 + lower - 128
  end.

End Utf8.

(* ================================================================== *)
(** * [src/utils/crypto.ts] *)

Module Crypto.

Import AES Base64.

(** ** Effects: the console, the network and exceptions *)

(** The three values of the [quality] parameter. *)
Inductive tier := high | medium | low.

Definition quality_string (q : tier) : jsstring :=
  match q with
  | high => js "high"
  | medium => js "medium"
  | low => js "low"
  end.

(** The form body of the POST to [https://gaana.com/api/stream-url]. *)
Record request := Request {
  req_quality : tier;
  req_track_id : jsstring;
  req_stream_format : jsstring
}.

(** The three [console.warn] calls of [decryptStreamPath] and the one of
    [fetchStreamUrl]. *)
Inductive warning :=
| Invalid_offset              (* 'Invalid offset in encrypted data' *)
| No_hls_path                 (* 'No /hls/ path found in decrypted text' *)
| Failed_to_decrypt (e : exn) (* 'Failed to decrypt stream path:', message *)
| Failed_to_fetch (e : exn).  (* 'Failed to fetch stream URL:', message *)

Inductive event :=
| Warn (w : warning)
| Post (r : request).

(** A computation yields the events it caused, in order, and how it
    completed. *)
Definition Eff (A : Type) : Type := list event * completion A.

Definition ret {A} (a : A) : Eff A := ([], Normal a).

Definition bind {A B} (m : Eff A) (k : A -> Eff B) : Eff B :=
  let '(log, c) := m in
  match c with
  | Normal a => let '(log', c') := k a in (log ++ log', c')
  | Throw e => (log, Throw e)
  end.

Definition lift {A} (c : completion A) : Eff A := ([], c).

Definition warn (w : warning) : Eff unit := ([Warn w], Normal tt).

Definition try_catch {A} (m : Eff A) (handler : exn -> Eff A) : Eff A :=
  let '(log, c) := m in
  match c with
  | Normal a => (log, Normal a)
  | Throw e => let '(log', c') := handler e in (log ++ log', c')
  end.

Notation "x <- m ;; k" := (bind m (fun x => k))
  (at level 61, m at next level, right associativity).
Notation "m ;; k" := (bind m (fun _ => k))
  (at level 61, right associativity).

(** ** Constants *)

(** [Buffer.from(s, 'utf8')] of an ASCII literal. *)
Definition Buffer_from_ascii (s : string) : list byte :=
  map byte_of_ascii (list_ascii_of_string s).

Definition KEY : list byte := Buffer_from_ascii "gy1t#b@jl(b$wtme".
Definition IV : list byte := Buffer_from_ascii "xC4dmVJAq14BfntX".

Definition HLS_BASE_URL : jsstring :=
  js "https://vodhlsgaana-ebw.akamaized.net/".

(** The key and the IV as states, and the round keys of the key. *)
Definition key_state : state := Eval vm_compute in block_of KEY.
Definition iv_state : state := Eval vm_compute in block_of IV.
Definition the_schedule : key_schedule := KeyExpansion key_state.

(** ** [decryptStreamPath] *)

(** Lines 41-45: the decipher is created, fed the whole ciphertext, and
    finalised. *)
Definition decrypt (ciphertext : list byte) : completion (list byte) :=
  match createDecipheriv KEY IV with
  | Throw e => Throw e
  | Normal decipher =>
      let '(decrypted, decipher) := update decipher ciphertext in
      match final decipher with
      | Throw e => Throw e
      | Normal last => Normal (decrypted ++ last)
      end
  end.

Definition printable (code : code_unit) : bool :=
  (32 <=? code) && (code <=? 126).

(** Lines 48-55: the clean-up of the decrypted text. *)
Definition clean_up (decrypted : list byte) : jsstring :=
  let rawText := trim (remove_nul (Utf8.toString decrypted)) in
  filter printable rawText.

(** Lines 58-65: the HLS path. *)
Definition extract_hls_path (rawText : jsstring) : Eff jsstring :=
  if includes (js "/hls/") rawText then
    let pathStart := indexOf (js "hls/") rawText in
    let cleanPath := substring pathStart rawText in
    ret (HLS_BASE_URL ++ cleanPath)
  else
    warn No_hls_path ;; ret [].

(** Lines 35-38: the bytes handed to the decipher.  [decode] stands for
    [Buffer.from(_, 'base64')]; it is a parameter here, so that what the
    code itself does with the payload can be told from what that decoder
    does. *)
Definition ciphertext_with (decode : jsstring -> list byte)
    (offset : Z) (encryptedData : jsstring) : list byte :=
  let ciphertextB64 := substring (offset + 16) encryptedData in
  decode (ciphertextB64 ++ js "==").

(** The function, for any base64 decoder. *)
Definition decryptStreamPath_with (decode : jsstring -> list byte)
    (encryptedData : jsstring) : Eff jsstring :=
  try_catch
    match parseInt (index0 encryptedData) with
    | None => warn Invalid_offset ;; ret []
    | Some offset =>
        let ciphertext := ciphertext_with decode offset encryptedData in
        decrypted <- lift (decrypt ciphertext) ;;
        let rawText := clean_up decrypted in
        extract_hls_path rawText
    end
    (fun error => warn (Failed_to_decrypt error) ;; ret []).

(** With Node's decoder. *)
Definition ciphertext_of (offset : Z) (encryptedData : jsstring) : list byte :=
  ciphertext_with from_base64 offset encryptedData.

Definition decryptStreamPath (encryptedData : jsstring) : Eff jsstring :=
  decryptStreamPath_with from_base64 encryptedData.

(** The value of the local [rawText] when control reaches line 57, if it
    does. *)
Definition rawText_of (encryptedData : jsstring) : option jsstring :=
  match parseInt (index0 encryptedData) with
  | None => None
  | Some offset =>
      match decrypt (ciphertext_of offset encryptedData) with
      | Normal decrypted => Some (clean_up decrypted)
      | Throw _ => None
      end
  end.

(** ** [fetchStreamUrl] *)

Record MediaUrl := {
  quality : jsstring;
  bitRate : jsstring;
  url : jsstring;
  format : jsstring
}.

(** The JSON envelope, as the code types it: every field is optional. *)
Record stream_data := {
  stream_path : option jsstring;
  bit_rate : option jsstring;
  track_format : option jsstring
}.

Record envelope := {
  api_status : option jsstring;
  data : option stream_data
}.

(** [fetch] followed by [res.json()]. *)
Definition transport := request -> completion envelope.

Definition post (t : transport) (r : request) : Eff envelope :=
  ([Post r], t r).

(** [a || b] on an optional string: [b] when [a] is missing or empty. *)
Definition or_else (a : option jsstring) (b : jsstring) : jsstring :=
  match a with
  | Some s => if truthy s then s else b
  | None => b
  end.

Definition eq_string (a b : jsstring) : bool :=
  if list_eq_dec N.eq_dec a b then true else false.

(** [data.api_status === 'success' && data.data?.stream_path]: the stream
    data and its path when the condition is truthy. *)
Definition success_path (e : envelope) : option (stream_data * jsstring) :=
  match api_status e, data e with
  | Some status, Some d =>
      match stream_path d with
      | Some p => if eq_string status (js "success") && truthy p
                  then Some (d, p) else None
      | None => None
      end
  | _, _ => None
  end.

Definition fetchStreamUrl (t : transport) (trackId : jsstring) (q : tier)
  : Eff (option MediaUrl) :=
  try_catch
    (let body := {| req_quality := q;
                    req_track_id := trackId;
                    req_stream_format := js "mp4" |} in
     data <- post t body ;;
     match success_path data with
     | Some (d, p) =>
         decryptedUrl <- decryptStreamPath p ;;
         if truthy decryptedUrl then
           ret (Some {| quality := quality_string q;
                        bitRate := or_else (bit_rate d) [];
                        url := decryptedUrl;
                        format := or_else (track_format d) (js "mp4") |})
         else ret None
     | None => ret None
     end)
    (fun error => warn (Failed_to_fetch error) ;; ret None).

(** ** [getMediaUrls] *)

Definition getMediaUrls (t : transport) (trackId : jsstring)
  : Eff (list MediaUrl) :=
  let qualities := [high; medium; low] in
  let results := [] in
  highQuality <- fetchStreamUrl t trackId high ;;
  let results :=
    match highQuality with
    | Some m => results ++ [m]
    | None => results
    end in
  ret results.

End Crypto.

(* ================================================================== *)
(** * The reference encoder *)

(** The encoder the round-trip property speaks of.  It is not part of the
    source; it follows the framing the specification describes: one offset
    digit N, N + 15 framing characters, then the AES-128-CBC ciphertext
    under the fixed key and IV in base64 without padding. *)
Module Reference.

Import AES Crypto.

Definition alphabet : jsstring :=
  js "ABCDEFGHIJKLMNOPQRSTUVWXYZabcdefghijklmnopqrstuvwxyz0123456789+/".

Definition base64_char (v : N) : code_unit := nth (N.to_nat v) alphabet 0.

Definition char1 (a : byte) : code_unit := base64_char (code a / 4).
Definition char2 (a b : byte) : code_unit :=
  base64_char ((code a mod 4) * 16 + code b / 16).
Definition char3 (b c : byte) : code_unit :=
  base64_char ((code b mod 16) * 4 + code c / 64).
Definition char4 (c : byte) : code_unit := base64_char (code c mod 64).

Fixpoint to_base64 (bs : list byte) : jsstring :=
  match bs with
  | a :: b :: c :: rest =>
      char1 a :: char2 a b :: char3 b c :: char4 c :: to_base64 rest
  | [a; b] => [char1 a; char2 a b; char3 b x00]
  | [a] => [char1 a; char2 a x00]
  | [] => []
  end.


(** CBC encryption of the complete blocks of [l]. *)
Fixpoint cbc_encrypt (ks : key_schedule) (prev : state) (l : list byte)
  : list byte :=
  match l with
  | a0 :: a1 :: a2 :: a3 :: b0 :: b1 :: b2 :: b3 ::
    c0 :: c1 :: c2 :: c3 :: d0 :: d1 :: d2 :: d3 :: rest =>
      let p := ((a0, a1, a2, a3), (b0, b1, b2, b3),
                (c0, c1, c2, c3), (d0, d1, d2, d3)) in
      let c := Cipher ks (AddRoundKey prev p) in
      state_bytes c ++ cbc_encrypt ks c rest
  | _ => []
  end.

Definition encrypt (plaintext : list byte) : list byte :=
  cbc_encrypt (KeyExpansion (block_of KEY)) (block_of IV) plaintext.

(** A path as the bytes the encoder enciphers. *)
Definition bytes_of (s : jsstring) : list byte := map Bytes.of_N s.

Definition encode (offset : N) (framing : jsstring) (plaintext : list byte)
  : jsstring :=
  (48 + offset) :: framing ++ to_base64 (encrypt plaintext).

(** ** A strict decoder, for comparison *)



End Reference.

(* ================================================================== *)
(** * The failure kinds of the specification *)

(** The specification names six ways a decode fails.  The source returns
    the empty string for each failure and tells them apart only by the
    warning it prints; [failure_kind] reads the kind off the outcome of a
    call.  A wrong final block length is the one decipher error the body can
    raise with the fixed key and IV. *)
Module Spec.

Import Crypto.

Inductive DecodeFailure :=
| MalformedOffset
| TruncatedPayload
| InvalidBase64
| InvalidCiphertextLength
| DecryptionFailure
| MarkerNotFound.

Definition kind_of_warning (w : warning) : option DecodeFailure :=
  match w with
  | Invalid_offset => Some MalformedOffset
  | No_hls_path => Some MarkerNotFound
  | Failed_to_decrypt ERR_WRONG_FINAL_BLOCK_LENGTH =>
      Some InvalidCiphertextLength
  | Failed_to_decrypt _ => Some DecryptionFailure
  | Failed_to_fetch _ => None
  end.

(** [None] for a call that succeeded. *)
Definition failure_kind (r : Eff jsstring) : option DecodeFailure :=
  match r with
  | ([Warn w], Normal []) => kind_of_warning w
  | _ => None
  end.

(** A call succeeded with this URL. *)
Definition yields (r : Eff jsstring) (u : jsstring) : Prop :=
  r = ([], Normal u) /\ u <> [].

(** The position of the first occurrence of [pat] in [s]. *)
Definition first_occurrence (pat s : jsstring) (i : nat) : Prop :=
  starts_with pat (skipn i s) = true /\
  forall j, (j < i)%nat -> starts_with pat (skipn j s) = false.

(** A stream path the resolver can use. *)
Definition decodable (p : jsstring) : Prop :=
  exists u, yields (decryptStreamPath p) u.

(** The request [fetchStreamUrl] builds for a track and a quality. *)
Definition the_request (trackId : jsstring) (q : tier) : request :=
  {| req_quality := q;
     req_track_id := trackId;
     req_stream_format := js "mp4" |}.

End Spec.

(* ================================================================== *)
(** * Sample fields *)

(** Encrypted fields used as concrete inputs below.  Each is what the
    reference encoder gives for the plaintext named in its comment (see
    [samples_are_encodings]). *)
Module Samples.

Import Crypto.

(** "junk###hls/abc/def.m3u8" and nine NUL bytes; offset 0. *)
Definition junk_field : jsstring :=
  js "0ABCDEFGHIJKLMNO8BKWIFRA6ROAx2VxPis6VoF9J81Ef58Td6J509JOy6M".

(** "x/hls/abc/def.m3u8" and fourteen NUL bytes; offset 3. *)
Definition slash_field : jsstring :=
  js "3ABCDEFGHIJKLMNOPQRYzBiN+D38vBNZ+asvEw3zyq1MwOJUMePSGnBtvc3LQ4".

(** "hls/abc/def.m3u8", exactly one block; offset 0. *)
Definition bare_field : jsstring :=
  js "0ABCDEFGHIJKLMNOfjz27fAo+P5hy8PHVOerUQ".

(** "stream/hls/12/3456/789.mp4.master.m3u8" and ten bytes 0x0a (PKCS#7
    padding); offset 7. *)
Definition padded_path : jsstring :=
  js "stream/hls/12/3456/789.mp4.master.m3u8".

Definition padded_field : jsstring :=
  js ("7-framing-region-of-22-ZAFhBBlYkYFn9CrRgix0A/hOzzcflUMl" ++
      "+Ci0kok4/EvLECMM8Fu2yN/KzVzTn2dq").

(** Offset 0, fifteen framing characters, no payload. *)
Definition empty_payload_field : jsstring := js "0ABCDEFGHIJKLMNO".

(** Offset 0 and a payload of 23 characters, which decodes to 17 bytes. *)
Definition ragged_field : jsstring :=
  js "0ABCDEFGHIJKLMNOAAAAAAAAAAAAAAAAAAAAAAA".

(** The example of FIPS-197, appendix B: key, input and output. *)
Definition fips_key : AES.state :=
  AES.block_of
    [x2b; x7e; x15; x16; x28; xae; xd2; xa6;
     xab; xf7; x15; x88; x09; xcf; x4f; x3c].

Definition fips_input : AES.state :=
  AES.block_of
    [x32; x43; xf6; xa8; x88; x5a; x30; x8d;
     x31; x31; x98; xa2; xe0; x37; x07; x34].

Definition fips_output : AES.state :=
  AES.block_of
    [x39; x25; x84; x1d; x02; xdc; x09; xfb;
     xdc; x11; x85; x97; x19; x6a; x0b; x32].

Definition slash_envelope : envelope :=
  {| api_status := Some (js "success");
     data := Some {| stream_path := Some slash_field;
                     bit_rate := Some (js "128");
                     track_format := None |} |}.

Definition slash_transport : transport := fun _ => Normal slash_envelope.

End Samples.

(* ================================================================== *)
(** * Variations of an input, and more sample transports *)

Module Variants.

Import Crypto.

(** The URL-safe spelling of a base64 character: [-] for [+] and [_] for
    [/]. *)
Definition url_safe (c : code_unit) : code_unit :=
  if c =? 43 then 45 else if c =? 47 then 95 else c.

(** A transport whose [fetch] rejects. *)
Definition failing_transport : transport := fun _ => Throw ERR_TRANSPORT.

(** An envelope that reports an error and still carries a path. *)
Definition refused_envelope : envelope :=
  {| api_status := Some (js "error");
     data := Some {| stream_path := Some Samples.slash_field;
                     bit_rate := None;
                     track_format := None |} |}.

Definition refused_transport : transport := fun _ => Normal refused_envelope.

(** A success envelope whose path deciphers to text without "/hls/". *)
Definition junk_envelope : envelope :=
  {| api_status := Some (js "success");
     data := Some {| stream_path := Some Samples.junk_field;
                     bit_rate := Some (js "64");
                     track_format := Some (js "mp4_aac") |} |}.

Definition junk_transport : transport := fun _ => Normal junk_envelope.

(** A success envelope with an empty bit rate and a given format. *)
Definition full_envelope : envelope :=
  {| api_status := Some (js "success");
     data := Some {| stream_path := Some Samples.slash_field;
                     bit_rate := Some [];
                     track_format := Some (js "mp4_aac") |} |}.

Definition full_transport : transport := fun _ => Normal full_envelope.

End Variants.

(* ================================================================== *)
(** * Facts about the string primitives *)

Import AES Base64 Crypto Spec.

(** Replaces every comparison the context decides by its value. *)
Ltac settle_tests :=
  repeat match goal with
         | |- context [?a =? ?b] =>
             first [ replace (a =? b) with true
                       by (symmetry; apply N.eqb_eq; lia)
                   | replace (a =? b) with false
                       by (symmetry; apply N.eqb_neq; lia) ]
         | |- context [?a <=? ?b] =>
             first [ replace (a <=? b) with true
                       by (symmetry; apply N.leb_le; lia)
                   | replace (a <=? b) with false
                       by (symmetry; apply N.leb_gt; lia) ]
         | |- context [?a <? ?b] =>
             first [ replace (a <? b) with true
                       by (symmetry; apply N.ltb_lt; lia)
                   | replace (a <? b) with false
                       by (symmetry; apply N.ltb_ge; lia) ]
         end.

Section StringFacts.

Lemma is_digit_not_white_space c :
  is_digit c = true -> is_white_space c = false.
Proof.
  unfold is_digit, is_white_space. intros H.
  apply andb_true_iff in H as [H1 H2].
  apply N.leb_le in H1. apply N.leb_le in H2.
  settle_tests. reflexivity.
Qed.

(** [parseInt] of a one-character string is that character's digit. *)
Lemma parseInt_single c :
  parseInt (Str [c]) =
  if is_digit c then Some (Z.of_N c - 48)%Z else None.
Proof.
  unfold parseInt. cbn [ToString drop_while].
  destruct (is_digit c) eqn:D.
  - rewrite (is_digit_not_white_space _ D).
    unfold is_digit in D. apply andb_true_iff in D as [D1 D2].
    apply N.leb_le in D1. apply N.leb_le in D2.
    settle_tests. cbn [take_while]. unfold is_digit. settle_tests.
    cbn [andb take_while fold_left]. f_equal. lia.
  - destruct (is_white_space c); [reflexivity|].
    destruct (c =? 45); [reflexivity|].
    destruct (c =? 43); [reflexivity|].
    cbn [take_while]. rewrite D. reflexivity.
Qed.

Lemma parseInt_undefined : parseInt Undefined = None.
Proof. reflexivity. Qed.

(** What the offset can be: the digit value of the first character. *)
Lemma parseInt_index0 s offset :
  parseInt (index0 s) = Some offset ->
  exists c s', s = c :: s' /\ is_digit c = true /\
               offset = (Z.of_N c - 48)%Z /\ (0 <= offset <= 9)%Z.
Proof.
  destruct s as [|c s']; cbn [index0].
  - rewrite parseInt_undefined. discriminate.
  - rewrite parseInt_single. destruct (is_digit c) eqn:D; [|discriminate].
    intros [= <-]. exists c, s'.
    repeat split; try reflexivity; try exact D.
    all: unfold is_digit in D; apply andb_true_iff in D as [D1 D2];
      apply N.leb_le in D1; apply N.leb_le in D2; lia.
Qed.

Lemma substring_past_end start s :
  (Z.of_nat (List.length s) <= start)%Z -> substring start s = [].
Proof.
  intros H. unfold substring. apply skipn_all2. lia.
Qed.

Lemma substring_nat n s : substring (Z.of_nat n) s = skipn n s.
Proof.
  unfold substring. f_equal. lia.
Qed.

Lemma starts_with_app pat s : starts_with pat (pat ++ s) = true.
Proof.
  induction pat as [|p pat IH]; [reflexivity|].
  cbn. rewrite N.eqb_refl. exact IH.
Qed.

Lemma starts_with_inv pat s :
  starts_with pat s = true -> exists t, s = pat ++ t.
Proof.
  revert s. induction pat as [|p pat IH]; intros s H.
  - exists s. reflexivity.
  - destruct s as [|c s]; [discriminate|].
    cbn in H. apply andb_true_iff in H as [E H].
    apply N.eqb_eq in E. subst c.
    destruct (IH _ H) as [t ->]. exists t. reflexivity.
Qed.

Lemma starts_with_tail p pat c s :
  starts_with (p :: pat) (c :: s) = true -> starts_with pat s = true.
Proof.
  cbn. intros H. apply andb_true_iff in H as [_ H]. exact H.
Qed.

Lemma includes_cons pat c s :
  includes pat (c :: s) = starts_with pat (c :: s) || includes pat s.
Proof. reflexivity. Qed.

Lemma includes_nil pat : includes pat [] = starts_with pat [].
Proof. cbn. apply orb_false_r. Qed.

(** A string that contains [c :: pat] contains [pat]. *)
Lemma includes_tail p pat s :
  includes (p :: pat) s = true -> includes pat s = true.
Proof.
  induction s as [|c s IH].
  - rewrite includes_nil. discriminate.
  - rewrite !includes_cons. intros H.
    apply orb_true_iff in H as [H|H].
    + apply starts_with_tail in H.
      apply orb_true_iff. right.
      destruct s as [|d s].
      * rewrite includes_nil. exact H.
      * rewrite includes_cons, H. reflexivity.
    + rewrite (IH H). apply orb_true_r.
Qed.

(** [indexOf] finds the first occurrence when there is one. *)
Lemma indexOf_from_spec pat s i :
  includes pat s = true ->
  exists n, indexOf_from i pat s = (i + Z.of_nat n)%Z /\
            first_occurrence pat s n.
Proof.
  revert i. induction s as [|c s IH]; intros i H.
  - rewrite includes_nil in H. exists 0%nat. cbn [indexOf_from].
    rewrite H. split; [lia|]. split; [exact H|]. intros j Hj. lia.
  - cbn [indexOf_from]. destruct (starts_with pat (c :: s)) eqn:E.
    + exists 0%nat. split; [lia|]. split; [exact E|]. intros j Hj. lia.
    + rewrite includes_cons, E in H. cbn [orb] in H.
      destruct (IH (i + 1)%Z H) as (n & -> & Hn & Hlt).
      exists (S n). split; [lia|]. split; [exact Hn|].
      intros [|j] Hj; [exact E|]. apply Hlt. lia.
Qed.

Lemma indexOf_spec pat s :
  includes pat s = true ->
  exists n, indexOf pat s = Z.of_nat n /\ first_occurrence pat s n.
Proof.
  intros H. destruct (indexOf_from_spec pat s 0 H) as (n & E & F).
  exists n. split; [exact E|exact F].
Qed.

Lemma indexOf_from_absent pat s i :
  includes pat s = false -> indexOf_from i pat s = (-1)%Z.
Proof.
  revert i. induction s as [|c s IH]; intros i H.
  - rewrite includes_nil in H. cbn [indexOf_from]. rewrite H. reflexivity.
  - rewrite includes_cons in H. apply orb_false_iff in H as [E H].
    cbn [indexOf_from]. rewrite E. apply IH, H.
Qed.

End StringFacts.

(* ================================================================== *)
(** * Facts about the decipher *)

Section DecipherFacts.

Lemma take_block_KEY : take_block KEY = Some (key_state, []).
Proof. reflexivity. Qed.

Lemma take_block_IV : take_block IV = Some (iv_state, []).
Proof. reflexivity. Qed.

Lemma createDecipheriv_fixed :
  createDecipheriv KEY IV =
  Normal {| schedule := the_schedule; chain := iv_state; pending := [] |}.
Proof.
  unfold createDecipheriv. rewrite take_block_KEY, take_block_IV.
  reflexivity.
Qed.

Lemma take_block_Some l s rest :
  take_block l = Some (s, rest) -> l = state_bytes s ++ rest.
Proof.
  unfold take_block.
  do 16 (destruct l as [|? l]; [discriminate|]).
  intros [= <- <-]. reflexivity.
Qed.

Lemma take_block_None l :
  take_block l = None -> (List.length l < 16)%nat.
Proof.
  unfold take_block.
  do 16 (destruct l as [|? l]; [cbn; lia|]).
  discriminate.
Qed.

Lemma take_block_app s rest : take_block (state_bytes s ++ rest) = Some (s, rest).
Proof.
  destruct s as [[[[[[a0 a1] a2] a3] [[[b0 b1] b2] b3]]
                    [[[c0 c1] c2] c3]] [[[d0 d1] d2] d3]].
  reflexivity.
Qed.

Lemma state_bytes_length s : List.length (state_bytes s) = 16%nat.
Proof.
  destruct s as [[[[[[a0 a1] a2] a3] [[[b0 b1] b2] b3]]
                    [[[c0 c1] c2] c3]] [[[d0 d1] d2] d3]].
  reflexivity.
Qed.

(** [cbc_decrypt], one block at a time. *)
Lemma cbc_decrypt_eq ks prev l :
  cbc_decrypt ks prev l =
  match take_block l with
  | Some (c, rest) =>
      let '(out, chn, tail) := cbc_decrypt ks c rest in
      (state_bytes (AddRoundKey prev (InvCipher ks c)) ++ out, chn, tail)
  | None => ([], prev, l)
  end.
Proof.
  do 16 (destruct l as [|? l]; [reflexivity|]).
  reflexivity.
Qed.

Lemma cbc_decrypt_block ks prev c rest :
  cbc_decrypt ks prev (state_bytes c ++ rest) =
  let '(out, chn, tail) := cbc_decrypt ks c rest in
  (state_bytes (AddRoundKey prev (InvCipher ks c)) ++ out, chn, tail).
Proof.
  rewrite cbc_decrypt_eq, take_block_app. reflexivity.
Qed.

Lemma cbc_decrypt_short ks prev l :
  (List.length l < 16)%nat -> cbc_decrypt ks prev l = ([], prev, l).
Proof.
  intros H. rewrite cbc_decrypt_eq.
  destruct (take_block l) as [[c rest]|] eqn:E; [|reflexivity].
  apply take_block_Some in E. subst l.
  rewrite length_app, state_bytes_length in H. lia.
Qed.

(** The complete blocks are deciphered, the remainder is kept. *)
Lemma cbc_decrypt_lengths ks l : forall prev out chn tail,
  cbc_decrypt ks prev l = (out, chn, tail) ->
  List.length out = (16 * (List.length l / 16))%nat /\
  List.length tail = (List.length l mod 16)%nat.
Proof.
  remember (List.length l) as n eqn:Hn. revert l Hn.
  induction n as [n IH] using (well_founded_induction PeanoNat.Nat.lt_wf_0).
  intros l Hn prev out chn tail. rewrite cbc_decrypt_eq.
  destruct (take_block l) as [[c rest]|] eqn:E.
  - apply take_block_Some in E. subst l n.
    destruct (cbc_decrypt ks c rest) as [[out' chn'] tail'] eqn:R.
    intros [= <- <- <-].
    apply (IH (List.length rest)) in R; [|
      rewrite length_app, state_bytes_length; lia | reflexivity].
    destruct R as [R1 R2].
    rewrite !length_app, !state_bytes_length, R1, R2.
    replace (16 + List.length rest)%nat
      with (List.length rest + 1 * 16)%nat by lia.
    rewrite PeanoNat.Nat.div_add, PeanoNat.Nat.Div0.mod_add by lia.
    split; lia.
  - apply take_block_None in E. intros [= <- <- <-]. subst n.
    rewrite PeanoNat.Nat.div_small, PeanoNat.Nat.mod_small by lia.
    split; [reflexivity|reflexivity].
Qed.

(** [decrypt] in terms of the block loop. *)
Lemma decrypt_eq ct :
  decrypt ct =
  match cbc_decrypt the_schedule iv_state ct with
  | (out, _, []) => Normal (out ++ [])
  | (_, _, _ :: _) => Throw ERR_WRONG_FINAL_BLOCK_LENGTH
  end.
Proof.
  unfold decrypt. rewrite createDecipheriv_fixed.
  unfold update, final. cbn [schedule chain pending app].
  destruct (cbc_decrypt the_schedule iv_state ct) as [[out chn] tail].
  cbn [pending]. destruct tail; reflexivity.
Qed.

Lemma decrypt_nil : decrypt [] = Normal [].
Proof. rewrite decrypt_eq. reflexivity. Qed.

(** [decrypt] fails exactly on a length that is not a multiple of 16, and
    only with the final-block error. *)
Lemma decrypt_partial ct :
  (List.length ct mod 16 <> 0)%nat ->
  decrypt ct = Throw ERR_WRONG_FINAL_BLOCK_LENGTH.
Proof.
  intros H. rewrite decrypt_eq.
  destruct (cbc_decrypt the_schedule iv_state ct) as [[out chn] tail] eqn:R.
  apply cbc_decrypt_lengths in R as [_ R].
  destruct tail; [cbn [List.length] in R; lia|reflexivity].
Qed.

Lemma decrypt_aligned ct :
  (List.length ct mod 16 = 0)%nat ->
  exists out, decrypt ct = Normal out /\
              List.length out = List.length ct.
Proof.
  intros H. rewrite decrypt_eq.
  destruct (cbc_decrypt the_schedule iv_state ct) as [[out chn] tail] eqn:R.
  apply cbc_decrypt_lengths in R as [R1 R2].
  destruct tail; [|cbn [List.length] in R2; lia].
  exists out. rewrite app_nil_r. split; [reflexivity|].
  rewrite R1. pose proof (PeanoNat.Nat.div_mod_eq (List.length ct) 16). lia.
Qed.

Lemma decrypt_cases ct :
  (exists out, decrypt ct = Normal out) \/
  decrypt ct = Throw ERR_WRONG_FINAL_BLOCK_LENGTH.
Proof.
  destruct (PeanoNat.Nat.eq_dec (List.length ct mod 16) 0) as [E|E].
  - left. destruct (decrypt_aligned ct E) as (out & H & _). eauto.
  - right. apply decrypt_partial, E.
Qed.

End DecipherFacts.

(* ================================================================== *)
(** * The outcomes of [decryptStreamPath] *)

Section Outcomes.

Lemma extract_hls_path_absent raw :
  includes (js "/hls/") raw = false ->
  extract_hls_path raw = ([Warn No_hls_path], Normal []).
Proof.
  intros H. unfold extract_hls_path. rewrite H. reflexivity.
Qed.

Lemma extract_hls_path_present raw :
  includes (js "/hls/") raw = true ->
  extract_hls_path raw =
  ([], Normal (HLS_BASE_URL ++ substring (indexOf (js "hls/") raw) raw)).
Proof.
  intros H. unfold extract_hls_path. rewrite H. reflexivity.
Qed.

Lemma extract_hls_path_normal raw :
  exists log u, extract_hls_path raw = (log, Normal u).
Proof.
  destruct (includes (js "/hls/") raw) eqn:H.
  - rewrite (extract_hls_path_present _ H). eauto.
  - rewrite (extract_hls_path_absent _ H). eauto.
Qed.

Lemma decryptStreamPath_NaN s :
  parseInt (index0 s) = None ->
  decryptStreamPath s = ([Warn Invalid_offset], Normal []).
Proof.
  intros H. unfold decryptStreamPath, decryptStreamPath_with. rewrite H.
  reflexivity.
Qed.

(** After the offset is read, the call is the decipher followed by the
    clean-up and the path extraction; a decipher error is caught. *)
Lemma decryptStreamPath_offset s offset :
  parseInt (index0 s) = Some offset ->
  decryptStreamPath s =
  match decrypt (ciphertext_of offset s) with
  | Normal decrypted => extract_hls_path (clean_up decrypted)
  | Throw e => ([Warn (Failed_to_decrypt e)], Normal [])
  end.
Proof.
  intros H. unfold decryptStreamPath, decryptStreamPath_with. rewrite H.
  fold (ciphertext_of offset s).
  destruct (decrypt (ciphertext_of offset s)) as [d|e]; cbn.
  - destruct (extract_hls_path_normal (clean_up d)) as (log & u & ->).
    cbn. reflexivity.
  - reflexivity.
Qed.

Lemma decryptStreamPath_rawText s raw :
  rawText_of s = Some raw ->
  decryptStreamPath s = extract_hls_path raw.
Proof.
  unfold rawText_of.
  destruct (parseInt (index0 s)) as [offset|] eqn:P; [|discriminate].
  rewrite (decryptStreamPath_offset _ _ P).
  destruct (decrypt (ciphertext_of offset s)); [|discriminate].
  intros [= <-]. reflexivity.
Qed.

(** The two ways a call ends. *)
Lemma decryptStreamPath_outcomes s :
  (exists path,
      rawText_of s <> None /\
      decryptStreamPath s = ([], Normal (HLS_BASE_URL ++ path))) \/
  (exists w, decryptStreamPath s = ([Warn w], Normal [])).
Proof.
  unfold rawText_of.
  destruct (parseInt (index0 s)) as [offset|] eqn:P.
  - rewrite (decryptStreamPath_offset _ _ P).
    destruct (decrypt (ciphertext_of offset s)) as [d|e].
    + destruct (includes (js "/hls/") (clean_up d)) eqn:I.
      * left. rewrite (extract_hls_path_present _ I).
        eexists. split; [discriminate|reflexivity].
      * right. rewrite (extract_hls_path_absent _ I). eauto.
    + right. eauto.
  - right. rewrite (decryptStreamPath_NaN _ P). eauto.
Qed.

(** The path extraction: with "/hls/" in the text, the result is the base
    host and the text from its first "hls/" on. *)
Lemma extract_hls_path_first raw :
  includes (js "/hls/") raw = true ->
  exists n rest,
    first_occurrence (js "hls/") raw n /\
    skipn n raw = js "hls/" ++ rest /\
    extract_hls_path raw = ([], Normal (HLS_BASE_URL ++ js "hls/" ++ rest)).
Proof.
  intros I. rewrite (extract_hls_path_present _ I).
  destruct (indexOf_spec (js "hls/") raw (includes_tail _ _ _ I))
    as (n & -> & F).
  rewrite substring_nat.
  destruct (starts_with_inv _ _ (proj1 F)) as [rest E].
  exists n, rest. rewrite E. split; [exact F|]. split; reflexivity.
Qed.

Lemma ciphertext_of_short s offset :
  (Z.of_nat (List.length s) <= offset + 16)%Z ->
  ciphertext_of offset s = [].
Proof.
  intros H. unfold ciphertext_of, ciphertext_with.
  rewrite substring_past_end by exact H.
  reflexivity.
Qed.

Lemma clean_up_nil : clean_up [] = [].
Proof. reflexivity. Qed.

End Outcomes.

(* ================================================================== *)
(** * Claims about the offset and the payload *)

(** C5. [decryptStreamPath] of the empty string fails with the
    invalid-offset warning (MalformedOffset), and so does it on every string
    whose first character is not one of the digits 0-9. *)
Theorem malformed_offset :
  failure_kind (decryptStreamPath []) = Some MalformedOffset /\
  decryptStreamPath [] = ([Warn Invalid_offset], Normal []) /\
  forall c s,
    is_digit c = false ->
    failure_kind (decryptStreamPath (c :: s)) = Some MalformedOffset /\
    decryptStreamPath (c :: s) = ([Warn Invalid_offset], Normal []).
Proof.
  split; [reflexivity|]. split; [reflexivity|].
  intros c s D.
  assert (E : decryptStreamPath (c :: s) = ([Warn Invalid_offset], Normal [])).
  { apply decryptStreamPath_NaN. cbn [index0].
    rewrite parseInt_single, D. reflexivity. }
  rewrite E. split; reflexivity.
Qed.

Lemma malformed_offset_witness :
  is_digit 120 = false /\
  decryptStreamPath (js "x123") = ([Warn Invalid_offset], Normal []).
Proof.
  split; [reflexivity|].
  apply (proj2 (proj2 malformed_offset) 120 (js "123")). reflexivity.
Defined.

(** C4, as the specification states it, fails: the one-character input "0"
    has offset 0, and 0 + 16 exceeds its length 1, but the call ends with
    the no-path warning (MarkerNotFound), not with TruncatedPayload. *)
Lemma truncated_payload_counterexample :
  parseInt (index0 (js "0")) = Some 0%Z /\
  (0 + 16 > Z.of_nat (List.length (js "0")))%Z /\
  decryptStreamPath (js "0") = ([Warn No_hls_path], Normal []) /\
  failure_kind (decryptStreamPath (js "0")) <> Some TruncatedPayload.
Proof.
  split; [reflexivity|]. split; [reflexivity|].
  split; [vm_compute; reflexivity|].
  vm_compute. discriminate.
Qed.

(** C4, amended.  The source has no length check.  When the first
    character is a digit with value [offset] and [offset + 16] reaches or
    exceeds the input length, [substring] yields the empty payload, the
    decipher gets no bytes, and the call fails with the no-path warning
    (MarkerNotFound). *)
Theorem truncated_payload_is_marker_not_found s offset :
  parseInt (index0 s) = Some offset ->
  (offset + 16 >= Z.of_nat (List.length s))%Z ->
  ciphertext_of offset s = [] /\
  decryptStreamPath s = ([Warn No_hls_path], Normal []) /\
  failure_kind (decryptStreamPath s) = Some MarkerNotFound.
Proof.
  intros P L.
  assert (C : ciphertext_of offset s = []) by (apply ciphertext_of_short; lia).
  assert (E : decryptStreamPath s = ([Warn No_hls_path], Normal [])).
  { rewrite (decryptStreamPath_offset _ _ P), C, decrypt_nil, clean_up_nil.
    reflexivity. }
  rewrite E. repeat split. exact C.
Qed.

Lemma truncated_payload_is_marker_not_found_witness :
  decryptStreamPath (js "3abcdefgh") = ([Warn No_hls_path], Normal []).
Proof.
  apply (truncated_payload_is_marker_not_found (js "3abcdefgh") 3%Z).
  - reflexivity.
  - vm_compute. discriminate.
Defined.

(** C8. [decryptStreamPath] never throws: on every input it returns
    normally, either a URL under the base host with nothing logged, or the
    empty string (which its caller tests as false) with exactly one
    warning. *)
Theorem decryptStreamPath_never_throws s :
  (exists path, decryptStreamPath s = ([], Normal (HLS_BASE_URL ++ path))) \/
  (exists w, decryptStreamPath s = ([Warn w], Normal [])).
Proof.
  destruct (decryptStreamPath_outcomes s) as [(path & _ & E)|(w & E)].
  - left. exists path. exact E.
  - right. exists w. exact E.
Qed.

(* ================================================================== *)
(** * The resolver *)

Section Resolver.

Variable t : transport.
Variable trackId : jsstring.

Lemma eq_string_spec a b : eq_string a b = true <-> a = b.
Proof.
  unfold eq_string. destruct (list_eq_dec N.eq_dec a b); split;
    intros; congruence.
Qed.

Lemma success_path_Some e d p :
  success_path e = Some (d, p) <->
  api_status e = Some (js "success") /\ data e = Some d /\
  stream_path d = Some p /\ p <> [].
Proof.
  unfold success_path.
  destruct (api_status e) as [status|]; [|split; [discriminate|]].
  2:{ intros (H & _). discriminate. }
  destruct (data e) as [d'|]; [|split; [discriminate|]].
  2:{ intros (_ & H & _). discriminate. }
  destruct (stream_path d') as [p'|] eqn:SP.
  - destruct (eq_string status (js "success")) eqn:E.
    + apply eq_string_spec in E. subst status.
      destruct p' as [|c p']; cbn [truthy andb].
      * split; [discriminate|].
        intros (_ & [= <-] & H & Hp). congruence.
      * split.
        -- intros [= <- <-]. repeat split; try assumption. discriminate.
        -- intros (_ & [= <-] & H & _). congruence.
    + cbn [andb]. split; [discriminate|].
      intros ([= H] & _). subst status.
      assert (eq_string (js "success") (js "success") = true)
        by (apply eq_string_spec; reflexivity).
      congruence.
  - split; [discriminate|]. intros (_ & [= <-] & H & _). congruence.
Qed.

Lemma success_path_status e :
  api_status e <> Some (js "success") -> success_path e = None.
Proof.
  intros H. destruct (success_path e) as [[d p]|] eqn:E; [|reflexivity].
  apply success_path_Some in E as (E & _). contradiction.
Qed.

(** What one call of [fetchStreamUrl] does: it posts one request, for the
    quality it was given, and never throws.  It returns a record exactly
    when the envelope carries a stream path that decodes. *)
Lemma fetchStreamUrl_outcome q :
  (exists e d p u,
      t (the_request trackId q) = Normal e /\
      success_path e = Some (d, p) /\
      yields (decryptStreamPath p) u /\
      fetchStreamUrl t trackId q =
      ([Post (the_request trackId q)],
       Normal (Some {| quality := quality_string q;
                       bitRate := or_else (bit_rate d) [];
                       url := u;
                       format := or_else (track_format d) (js "mp4") |})))
  \/
  (exists ws,
      fetchStreamUrl t trackId q =
      (Post (the_request trackId q) :: map Warn ws, Normal None) /\
      forall e d p,
        t (the_request trackId q) = Normal e ->
        success_path e = Some (d, p) ->
        ~ decodable p).
Proof.
  unfold fetchStreamUrl, post. fold (the_request trackId q).
  destruct (t (the_request trackId q)) as [e|err] eqn:T.
  - cbn [bind try_catch].
    destruct (success_path e) as [[d p]|] eqn:S.
    + destruct (decryptStreamPath_outcomes p) as [(path & _ & E)|[w E]].
      * left. exists e, d, p, (HLS_BASE_URL ++ path).
        repeat split; try assumption; try discriminate.
        rewrite E. reflexivity.
      * right. exists [w]. rewrite E. split; [reflexivity|].
        intros e' d' p' [= <-] S'. rewrite S in S'.
        injection S' as <- <-.
        intros (u & Hu & Hne). rewrite E in Hu. congruence.
    + right. exists []. split; [reflexivity|].
      intros e' d' p' [= <-] S'. congruence.
  - right. exists [Failed_to_fetch err]. split; [reflexivity|].
    intros e' d' p' [=].
Qed.

End Resolver.

(** C9. With the transport given as a function: when it answers the
    request for quality "high" with an envelope whose [api_status] is
    "success" and whose [stream_path] is non-empty and decodes,
    [fetchStreamUrl trackId "high"] returns a record whose quality is
    "high" (and whose url is the decoded one); when the envelope's
    [api_status] is not "success", it returns null. *)
Theorem fetchStreamUrl_high t trackId e :
  t (the_request trackId high) = Normal e ->
  (forall d p,
      api_status e = Some (js "success") ->
      data e = Some d ->
      stream_path d = Some p ->
      p <> [] ->
      decodable p ->
      exists log m,
        fetchStreamUrl t trackId high = (log, Normal (Some m)) /\
        quality m = js "high" /\
        yields (decryptStreamPath p) (url m)) /\
  (api_status e <> Some (js "success") ->
   exists log, fetchStreamUrl t trackId high = (log, Normal None)).
Proof.
  intros T. split.
  - intros d p H1 H2 H3 H4 D.
    assert (S : success_path e = Some (d, p))
      by (apply success_path_Some; auto).
    destruct (fetchStreamUrl_outcome t trackId high)
      as [(e' & d' & p' & u & T' & S' & Y & E)|(ws & E & N)].
    + rewrite T in T'. injection T' as <-.
      rewrite S in S'. injection S' as <- <-.
      eexists _, _. split; [exact E|]. split; [reflexivity|exact Y].
    + exfalso. exact (N e d p T S D).
  - intros H.
    unfold fetchStreamUrl, post. fold (the_request trackId high).
    rewrite T. cbn [bind try_catch].
    rewrite (success_path_status _ H). cbn. eauto.
Qed.

(** C10. [getMediaUrls] tries the highest tier only: whatever the
    transport answers, it returns normally a list of at most one record, any
    record in it has quality "high", and the only request posted is the one
    for "high"; none is made for "medium" or "low". *)
Theorem getMediaUrls_high_only t trackId :
  exists log results,
    getMediaUrls t trackId = (log, Normal results) /\
    (List.length results <= 1)%nat /\
    (forall m, In m results -> quality m = js "high") /\
    (forall r, In (Post r) log -> r = the_request trackId high) /\
    (forall r, In (Post r) log ->
               req_quality r <> medium /\ req_quality r <> low).
Proof.
  unfold getMediaUrls.
  assert (P : forall ws r, In (Post r) (map Warn ws) -> False).
  { intros ws r H. apply in_map_iff in H as (w & H & _). discriminate. }
  destruct (fetchStreamUrl_outcome t trackId high)
    as [(e & d & p & u & _ & _ & _ & E)|(ws & E & _)]; rewrite E; cbn.
  - eexists _, _. split; [reflexivity|]. cbn. split; [lia|].
    split; [intros m [<-|[]]; reflexivity|].
    split; intros r [H|[]]; injection H as <-;
      [reflexivity|split; discriminate].
  - eexists _, _. split; [reflexivity|]. cbn. split; [lia|].
    split; [intros m []|].
    rewrite app_nil_r.
    split; intros r [H|H]; try (injection H as <-);
      try reflexivity; try (split; discriminate);
      exfalso; exact (P _ _ H).
Qed.

Lemma fetchStreamUrl_high_witness :
  exists log m,
    fetchStreamUrl Samples.slash_transport (js "42") high
      = (log, Normal (Some m)) /\
    quality m = js "high" /\
    yields (decryptStreamPath Samples.slash_field) (url m).
Proof.
  apply (proj1 (fetchStreamUrl_high Samples.slash_transport (js "42")
                  Samples.slash_envelope eq_refl)
           {| stream_path := Some Samples.slash_field;
              bit_rate := Some (js "128");
              track_format := None |}
           Samples.slash_field).
  - reflexivity.
  - reflexivity.
  - reflexivity.
  - discriminate.
  - exists (HLS_BASE_URL ++ js "hls/abc/def.m3u8").
    split; [vm_compute; reflexivity|discriminate].
Defined.

(* ================================================================== *)
(** * The path marker *)

(** C1, as the specification states it, fails: the guard of the source
    looks for "/hls/", with the leading slash.  The field below deciphers
    and cleans up to "junk###hls/abc/def.m3u8", which contains "hls/", yet
    the call returns the empty string with the no-path warning. *)
Lemma hls_marker_counterexample :
  rawText_of Samples.junk_field = Some (js "junk###hls/abc/def.m3u8") /\
  includes (js "hls/") (js "junk###hls/abc/def.m3u8") = true /\
  decryptStreamPath Samples.junk_field = ([Warn No_hls_path], Normal []) /\
  ~ yields (decryptStreamPath Samples.junk_field)
      (HLS_BASE_URL ++ js "hls/abc/def.m3u8").
Proof.
  split; [vm_compute; reflexivity|].
  split; [vm_compute; reflexivity|].
  assert (E : decryptStreamPath Samples.junk_field
              = ([Warn No_hls_path], Normal []))
    by (vm_compute; reflexivity).
  split; [exact E|].
  intros [H _]. rewrite E in H. discriminate.
Qed.

(** C1, amended.  For every input that reaches the path extraction with
    cleaned text [raw]: if [raw] contains "/hls/", the call succeeds and
    returns the base host followed by the suffix of [raw] that starts at the
    first occurrence of "hls/"; if [raw] does not contain "/hls/", the call
    fails with the no-path warning (MarkerNotFound) and returns no URL. *)
Theorem hls_path_extraction s raw :
  rawText_of s = Some raw ->
  (includes (js "/hls/") raw = true ->
   exists n rest,
     first_occurrence (js "hls/") raw n /\
     skipn n raw = js "hls/" ++ rest /\
     decryptStreamPath s = ([], Normal (HLS_BASE_URL ++ js "hls/" ++ rest)) /\
     yields (decryptStreamPath s) (HLS_BASE_URL ++ skipn n raw)) /\
  (includes (js "/hls/") raw = false ->
   decryptStreamPath s = ([Warn No_hls_path], Normal []) /\
   failure_kind (decryptStreamPath s) = Some MarkerNotFound).
Proof.
  intros R. rewrite (decryptStreamPath_rawText _ _ R). split; intros I.
  - destruct (extract_hls_path_first _ I) as (n & rest & F & E & D).
    exists n, rest. rewrite E, D.
    split; [exact F|]. split; [reflexivity|]. split; [reflexivity|].
    split; [reflexivity|discriminate].
  - rewrite (extract_hls_path_absent _ I). split; reflexivity.
Qed.

Lemma hls_path_extraction_witness :
  exists n rest,
    first_occurrence (js "hls/") (js "x/hls/abc/def.m3u8") n /\
    skipn n (js "x/hls/abc/def.m3u8") = js "hls/" ++ rest /\
    decryptStreamPath Samples.slash_field
      = ([], Normal (HLS_BASE_URL ++ js "hls/" ++ rest)) /\
    yields (decryptStreamPath Samples.slash_field)
      (HLS_BASE_URL ++ skipn n (js "x/hls/abc/def.m3u8")).
Proof.
  apply (hls_path_extraction Samples.slash_field (js "x/hls/abc/def.m3u8")).
  - vm_compute. reflexivity.
  - vm_compute. reflexivity.
Defined.

(* ================================================================== *)
(** * The ciphertext length *)

(** C3, as the specification states it, fails twice.  A payload of no
    bytes is not a positive multiple of 16, yet the call ends with the
    no-path warning and not with a length error.  And a payload of 17 bytes
    does end with the length error, but only in [final], after [update] has
    deciphered the first block. *)
Lemma ciphertext_length_counterexample :
  (ciphertext_of 0 Samples.empty_payload_field = [] /\
   decryptStreamPath Samples.empty_payload_field
     = ([Warn No_hls_path], Normal []) /\
   failure_kind (decryptStreamPath Samples.empty_payload_field)
     <> Some InvalidCiphertextLength) /\
  (List.length (ciphertext_of 0 Samples.ragged_field) = 17%nat /\
   forall d, createDecipheriv KEY IV = Normal d ->
             List.length (fst (update d (ciphertext_of 0 Samples.ragged_field)))
             = 16%nat).
Proof.
  split; [split; [reflexivity|split; [vm_compute; reflexivity|]]|].
  - vm_compute. discriminate.
  - split; [reflexivity|].
    intros d. rewrite createDecipheriv_fixed. intros [= <-].
    vm_compute. reflexivity.
Qed.

(** C3, amended.  For every input with a digit offset whose payload
    decodes to a number of bytes that is not a multiple of 16, the call
    fails with the decipher's wrong-final-block-length error: [update]
    deciphers the complete blocks, [final] then throws, and the error is
    caught and logged.  (A payload of no bytes is not rejected.) *)
Theorem wrong_final_block_length s offset :
  parseInt (index0 s) = Some offset ->
  (List.length (ciphertext_of offset s) mod 16 <> 0)%nat ->
  decryptStreamPath s
    = ([Warn (Failed_to_decrypt ERR_WRONG_FINAL_BLOCK_LENGTH)], Normal []) /\
  failure_kind (decryptStreamPath s) = Some InvalidCiphertextLength /\
  forall d,
    createDecipheriv KEY IV = Normal d ->
    List.length (fst (update d (ciphertext_of offset s)))
    = (16 * (List.length (ciphertext_of offset s) / 16))%nat /\
    final (snd (update d (ciphertext_of offset s)))
    = Throw ERR_WRONG_FINAL_BLOCK_LENGTH.
Proof.
  intros P L.
  assert (E : decryptStreamPath s
              = ([Warn (Failed_to_decrypt ERR_WRONG_FINAL_BLOCK_LENGTH)],
                 Normal [])).
  { rewrite (decryptStreamPath_offset _ _ P), (decrypt_partial _ L).
    reflexivity. }
  rewrite E. split; [reflexivity|]. split; [reflexivity|].
  intros d. rewrite createDecipheriv_fixed. intros [= <-].
  unfold update, final. cbn [schedule chain pending app].
  destruct (cbc_decrypt the_schedule iv_state (ciphertext_of offset s))
    as [[out chn] tail] eqn:R.
  apply cbc_decrypt_lengths in R as [R1 R2].
  cbn [fst snd pending]. split; [exact R1|].
  destruct tail; [cbn [List.length] in R2; lia|reflexivity].
Qed.

Lemma wrong_final_block_length_witness :
  decryptStreamPath Samples.ragged_field
  = ([Warn (Failed_to_decrypt ERR_WRONG_FINAL_BLOCK_LENGTH)], Normal []).
Proof.
  apply (wrong_final_block_length Samples.ragged_field 0%Z).
  - reflexivity.
  - vm_compute. discriminate.
Defined.

(* ================================================================== *)
(** * AES: the inverse cipher undoes the cipher *)

Section BitFacts.

Lemma to_bits_bxor a b :
  Byte.to_bits (bxor a b) = xor_bits (Byte.to_bits a) (Byte.to_bits b).
Proof. unfold bxor. apply Byte.to_bits_of_bits. Qed.

Lemma to_bits_xtime a :
  Byte.to_bits (xtime a) = xtime_bits (Byte.to_bits a).
Proof. unfold xtime. apply Byte.to_bits_of_bits. Qed.

Lemma to_bits_inj a b : Byte.to_bits a = Byte.to_bits b -> a = b.
Proof.
  intros H. rewrite <- (Byte.of_bits_to_bits a), <- (Byte.of_bits_to_bits b).
  f_equal. exact H.
Qed.

End BitFacts.

(** An equation between bytes built from [bxor] and [xtime] is an equation
    between their bits, which [btauto] decides. *)
Ltac byte_bits :=
  apply to_bits_inj;
  unfold xor4, m2, m3, m9, m11, m13, m14;
  repeat (rewrite ?to_bits_bxor, ?to_bits_xtime);
  repeat match goal with
         | |- context [Byte.to_bits ?x] =>
             is_var x;
             destruct (Byte.to_bits x) as [? [? [? [? [? [? [? ?]]]]]]]
         end;
  cbv [xor_bits xtime_bits];
  repeat (f_equal; try btauto).

Section CipherInverse.

Lemma bxor_involutive a k : bxor (bxor a k) k = a.
Proof. byte_bits. Qed.

Lemma bxor_comm a b : bxor a b = bxor b a.
Proof. byte_bits. Qed.

Lemma xtime_bxor a b : xtime (bxor a b) = bxor (xtime a) (xtime b).
Proof. byte_bits. Qed.

Lemma wxor_involutive w k : wxor (wxor w k) k = w.
Proof.
  destruct w as [[[a b] c] d], k as [[[a' b'] c'] d'].
  cbv [wxor]. rewrite !bxor_involutive. reflexivity.
Qed.

Lemma AddRoundKey_involutive k s : AddRoundKey k (AddRoundKey k s) = s.
Proof.
  destruct s as [[[a b] c] d], k as [[[a' b'] c'] d'].
  cbv [AddRoundKey]. rewrite !wxor_involutive. reflexivity.
Qed.

Lemma inv_sbox_sbox a : inv_sbox (sbox a) = a.
Proof. destruct a; reflexivity. Qed.

Lemma sbox_inv_sbox a : sbox (inv_sbox a) = a.
Proof. destruct a; reflexivity. Qed.

Lemma InvSubBytes_SubBytes s : InvSubBytes (SubBytes s) = s.
Proof.
  destruct s as [[[[[[a0 a1] a2] a3] [[[b0 b1] b2] b3]]
                    [[[c0 c1] c2] c3]] [[[d0 d1] d2] d3]].
  cbv [InvSubBytes SubBytes smap wmap]. rewrite !inv_sbox_sbox. reflexivity.
Qed.

Lemma InvShiftRows_ShiftRows s : InvShiftRows (ShiftRows s) = s.
Proof.
  destruct s as [[[[[[a0 a1] a2] a3] [[[b0 b1] b2] b3]]
                    [[[c0 c1] c2] c3]] [[[d0 d1] d2] d3]].
  reflexivity.
Qed.

Lemma inv_mix_column_mix_column w : inv_mix_column (mix_column w) = w.
Proof.
  destruct w as [[[a b] c] d]. unfold mix_column, inv_mix_column.
  f_equal; [f_equal; [f_equal|]|]; byte_bits.
Qed.

Lemma InvMixColumns_MixColumns s : InvMixColumns (MixColumns s) = s.
Proof.
  destruct s as [[[a b] c] d]. cbv [InvMixColumns MixColumns smap].
  rewrite !inv_mix_column_mix_column. reflexivity.
Qed.

End CipherInverse.

(** The model computes the example of FIPS-197, appendix B, and the
    S-box values the standard quotes. *)
Lemma fips197_appendix_b :
  Cipher (KeyExpansion Samples.fips_key) Samples.fips_input
  = Samples.fips_output /\
  InvCipher (KeyExpansion Samples.fips_key) Samples.fips_output
  = Samples.fips_input /\
  sbox x00 = x63 /\ sbox x53 = xed /\ inv_sbox xed = x53.
Proof. repeat split; vm_compute; reflexivity. Qed.

Section CipherRoundTrip.

Variable ks : key_schedule.

Lemma inv_round_round k s :
  inv_round k (ShiftRows (SubBytes (round s k))) = ShiftRows (SubBytes s).
Proof.
  unfold inv_round, round.
  rewrite InvShiftRows_ShiftRows, InvSubBytes_SubBytes.
  rewrite AddRoundKey_involutive. apply InvMixColumns_MixColumns.
Qed.

Lemma inv_rounds_rounds mids : forall s,
  fold_right inv_round (ShiftRows (SubBytes (fold_left round mids s))) mids
  = ShiftRows (SubBytes s).
Proof.
  induction mids as [|k mids IH]; intros s; [reflexivity|].
  cbn [fold_left fold_right]. rewrite IH. apply inv_round_round.
Qed.

(** FIPS-197: the inverse cipher is the inverse of the cipher, for every
    key schedule. *)
Lemma InvCipher_Cipher s : InvCipher ks (Cipher ks s) = s.
Proof.
  unfold InvCipher, Cipher.
  rewrite AddRoundKey_involutive, inv_rounds_rounds.
  rewrite InvShiftRows_ShiftRows, InvSubBytes_SubBytes.
  apply AddRoundKey_involutive.
Qed.

Lemma cbc_encrypt_eq prev l :
  Reference.cbc_encrypt ks prev l =
  match take_block l with
  | Some (p, rest) =>
      let c := Cipher ks (AddRoundKey prev p) in
      state_bytes c ++ Reference.cbc_encrypt ks c rest
  | None => []
  end.
Proof.
  do 16 (destruct l as [|? l]; [reflexivity|]).
  reflexivity.
Qed.

(** CBC deciphering undoes CBC enciphering on whole blocks. *)
Lemma cbc_decrypt_encrypt l : forall prev,
  (List.length l mod 16 = 0)%nat ->
  exists chn,
    cbc_decrypt ks prev (Reference.cbc_encrypt ks prev l) = (l, chn, []).
Proof.
  remember (List.length l) as n eqn:Hn. revert l Hn.
  induction n as [n IH] using (well_founded_induction PeanoNat.Nat.lt_wf_0).
  intros l Hn prev M. rewrite cbc_encrypt_eq.
  destruct (take_block l) as [[p rest]|] eqn:E.
  - apply take_block_Some in E. subst l n.
    rewrite length_app, state_bytes_length in M.
    cbv zeta. rewrite cbc_decrypt_block.
    destruct (IH (List.length rest)) with (l := rest)
      (prev := Cipher ks (AddRoundKey prev p)) as [chn R].
    + rewrite length_app, state_bytes_length. lia.
    + reflexivity.
    + replace (16 + List.length rest)%nat
        with (List.length rest + 1 * 16)%nat in M by lia.
      rewrite PeanoNat.Nat.Div0.mod_add in M. exact M.
    + rewrite R. exists chn.
      rewrite InvCipher_Cipher, AddRoundKey_involutive. reflexivity.
  - apply take_block_None in E. subst n.
    rewrite PeanoNat.Nat.mod_small in M by exact E.
    apply length_zero_iff_nil in M. subst l. exists prev. reflexivity.
Qed.

End CipherRoundTrip.

(** [decrypt] recovers what the reference encoder enciphered. *)
Lemma decrypt_encrypt plaintext :
  (List.length plaintext mod 16 = 0)%nat ->
  decrypt (Reference.encrypt plaintext) = Normal plaintext.
Proof.
  intros M. rewrite decrypt_eq. unfold Reference.encrypt.
  change (KeyExpansion (block_of KEY)) with the_schedule.
  change (block_of IV) with iv_state.
  destruct (cbc_decrypt_encrypt the_schedule plaintext iv_state M) as [chn ->].
  rewrite app_nil_r. reflexivity.
Qed.

(* ================================================================== *)
(** * Base64 *)

(** Linear arithmetic with division and remainder by constants. *)
Ltac div_lia := zify; Z.to_euclidean_division_equations; lia.

Section Base64Facts.

Lemma code_bounded a : code a < 256.
Proof. unfold code. pose proof (Byte.to_N_bounded a). lia. Qed.

Lemma of_N_code a : Bytes.of_N (code a) = a.
Proof.
  unfold Bytes.of_N, code.
  rewrite N.mod_small by (pose proof (Byte.to_N_bounded a); lia).
  rewrite Byte.of_to_N. reflexivity.
Qed.

Lemma code_of_N n : n < 256 -> code (Bytes.of_N n) = n.
Proof.
  intros H. unfold Bytes.of_N, code. rewrite N.mod_small by exact H.
  destruct (Byte.of_N n) as [b|] eqn:E.
  - apply Byte.to_of_N, E.
  - apply Byte.of_N_None_iff in E. lia.
Qed.

(** Induction on a list three elements at a time. *)
Lemma list_ind3 {A} (P : list A -> Prop) :
  P [] -> (forall a, P [a]) -> (forall a b, P [a; b]) ->
  (forall a b c l, P l -> P (a :: b :: c :: l)) ->
  forall l, P l.
Proof.
  intros H0 H1 H2 H3. fix IH 1.
  intros [|a [|b [|c l]]]; [exact H0|apply H1|apply H2|apply H3, IH].
Qed.

Lemma below_64 v :
  v < 64 -> In v (map N.of_nat (seq 0 64)).
Proof.
  intros H. apply in_map_iff. exists (N.to_nat v).
  split; [lia|]. apply in_seq. lia.
Qed.

Lemma unbase64_base64_char v :
  v < 64 -> unbase64 (Reference.base64_char v) = Some v.
Proof.
  intros H.
  assert (A : forallb
                (fun v => match unbase64 (Reference.base64_char v) with
                          | Some w => w =? v
                          | None => false
                          end) (map N.of_nat (seq 0 64)) = true)
    by (vm_compute; reflexivity).
  rewrite forallb_forall in A. specialize (A v (below_64 v H)).
  destruct (unbase64 (Reference.base64_char v)); [|discriminate].
  apply N.eqb_eq in A. congruence.
Qed.

Lemma sextets_char v s :
  v < 64 -> sextets (Reference.base64_char v :: s) = v :: sextets s.
Proof.
  intros H. cbn [sextets]. rewrite (unbase64_base64_char v H). reflexivity.
Qed.

(** Everything after the first [=] is ignored, so two more [=] at the end
    change nothing. *)
Lemma sextets_pad p : sextets (p ++ js "==") = sextets p.
Proof.
  induction p as [|c p IH]; [reflexivity|].
  cbn [app sextets]. rewrite IH. reflexivity.
Qed.


Lemma char1_lt a : code a / 4 < 64.
Proof. pose proof (code_bounded a). div_lia. Qed.

Lemma char2_lt a b : (code a mod 4) * 16 + code b / 16 < 64.
Proof. pose proof (code_bounded a). pose proof (code_bounded b). div_lia. Qed.

Lemma char3_lt b c : (code b mod 16) * 4 + code c / 64 < 64.
Proof. pose proof (code_bounded b). pose proof (code_bounded c). div_lia. Qed.

Lemma char4_lt c : code c mod 64 < 64.
Proof. pose proof (code_bounded c). div_lia. Qed.

Lemma byte1_chars a b :
  byte1 (code a / 4) ((code a mod 4) * 16 + code b / 16) = a.
Proof.
  unfold byte1. rewrite <- (of_N_code a) at 3. f_equal.
  pose proof (code_bounded a). pose proof (code_bounded b). div_lia.
Qed.

Lemma byte2_chars a b c :
  byte2 ((code a mod 4) * 16 + code b / 16)
        ((code b mod 16) * 4 + code c / 64) = b.
Proof.
  unfold byte2. rewrite <- (of_N_code b) at 3. f_equal.
  pose proof (code_bounded a). pose proof (code_bounded b).
  pose proof (code_bounded c). div_lia.
Qed.

Lemma byte3_chars b c :
  byte3 ((code b mod 16) * 4 + code c / 64) (code c mod 64) = c.
Proof.
  unfold byte3. rewrite <- (of_N_code c) at 3. f_equal.
  pose proof (code_bounded b). pose proof (code_bounded c). div_lia.
Qed.

Lemma code_x00 : code x00 = 0.
Proof. reflexivity. Qed.

(** Decoding undoes the unpadded encoding, whatever follows the first
    [=] after it. *)
Lemma from_base64_to_base64 bs : forall tail,
  from_base64 (Reference.to_base64 bs ++ 61 :: tail) = bs.
Proof.
  unfold from_base64.
  induction bs as [|a|a b|a b c l IH] using list_ind3; intros tail.
  - reflexivity.
  - cbn [Reference.to_base64 app].
    unfold Reference.char1, Reference.char2.
    rewrite !sextets_char by (apply char1_lt || apply char2_lt).
    cbn [sextets pack]. change (unbase64 61) with (@None N).
    cbv iota. change (61 mod 256 =? 61) with true. cbv iota.
    cbn [pack]. rewrite byte1_chars. reflexivity.
  - cbn [Reference.to_base64 app].
    unfold Reference.char1, Reference.char2, Reference.char3.
    rewrite !sextets_char
      by (apply char1_lt || apply char2_lt || apply char3_lt).
    cbn [sextets pack]. change (unbase64 61) with (@None N).
    cbv iota. change (61 mod 256 =? 61) with true. cbv iota.
    cbn [pack]. rewrite byte1_chars, byte2_chars. reflexivity.
  - cbn [Reference.to_base64 app].
    unfold Reference.char1, Reference.char2, Reference.char3,
      Reference.char4.
    rewrite !sextets_char
      by (apply char1_lt || apply char2_lt || apply char3_lt
          || apply char4_lt).
    cbn [pack]. rewrite byte1_chars, byte2_chars, byte3_chars.
    f_equal. f_equal. f_equal. apply IH.
Qed.

Lemma from_base64_unpadded bs :
  from_base64 (Reference.to_base64 bs ++ js "==") = bs.
Proof. apply (from_base64_to_base64 bs [61]). Qed.


End Base64Facts.

Section StrictFacts.






End StrictFacts.


(* ================================================================== *)
(** * The clean-up of the decrypted text *)

Section TrimFacts.

Variable p : code_unit -> bool.

Lemma take_drop_while s : s = take_while p s ++ drop_while p s.
Proof.
  induction s as [|c s IH]; [reflexivity|].
  cbn. destruct (p c); [cbn; f_equal; exact IH|reflexivity].
Qed.

Lemma take_while_all s : Forall (fun c => p c = true) (take_while p s).
Proof.
  induction s as [|c s IH]; [constructor|].
  cbn. destruct (p c) eqn:E; [constructor; assumption|constructor].
Qed.

Lemma drop_while_head s c :
  hd_error (drop_while p s) = Some c -> p c = false.
Proof.
  induction s as [|d s IH]; [discriminate|].
  cbn. destruct (p d) eqn:E; [exact IH|].
  cbn. intros [= <-]. exact E.
Qed.

Lemma drop_while_stop c s : p c = false -> drop_while p (c :: s) = c :: s.
Proof. intros H. cbn. rewrite H. reflexivity. Qed.

Lemma drop_while_all s :
  Forall (fun c => p c = true) s -> drop_while p s = [].
Proof.
  induction 1 as [|c s H _ IH]; [reflexivity|].
  cbn. rewrite H. exact IH.
Qed.

Lemma drop_while_app_stop l c s :
  Forall (fun c => p c = true) l -> p c = false ->
  drop_while p (l ++ c :: s) = c :: s.
Proof.
  induction 1 as [|d l H _ IH]; intros E.
  - apply drop_while_stop, E.
  - cbn. rewrite H. apply IH, E.
Qed.

End TrimFacts.

Section CleanUpFacts.

(** [trim] removes a run of white space at each end, and all of it. *)
Lemma trim_spec s :
  exists l r,
    s = l ++ trim s ++ r /\
    Forall (fun c => is_white_space c = true) l /\
    Forall (fun c => is_white_space c = true) r /\
    (forall c, hd_error (trim s) = Some c -> is_white_space c = false) /\
    (forall c, hd_error (rev (trim s)) = Some c -> is_white_space c = false).
Proof.
  unfold trim, trimEnd, trimStart.
  set (s1 := drop_while is_white_space s).
  exists (take_while is_white_space s),
         (rev (take_while is_white_space (rev s1))).
  assert (E1 : s1 = rev (drop_while is_white_space (rev s1))
                    ++ rev (take_while is_white_space (rev s1))).
  { rewrite <- rev_app_distr, <- take_drop_while, rev_involutive.
    reflexivity. }
  split; [|split; [|split; [|split]]].
  - rewrite <- E1. apply take_drop_while.
  - apply take_while_all.
  - apply Forall_rev, take_while_all.
  - intros c H.
    apply (drop_while_head is_white_space s). fold s1. rewrite E1.
    destruct (rev (drop_while is_white_space (rev s1))); [discriminate|].
    exact H.
  - intros c. rewrite rev_involutive. apply drop_while_head.
Qed.

Lemma printable_range c : printable c = true <-> 32 <= c <= 126.
Proof.
  unfold printable. rewrite andb_true_iff, !N.leb_le. reflexivity.
Qed.

Lemma printable_high c : 127 <= c -> printable c = false.
Proof.
  intros H. unfold printable. settle_tests. reflexivity.
Qed.

(** ** UTF-8 decoding keeps the printable bytes and adds none *)

Lemma emit_not_printable cp :
  128 <= cp -> filter printable (Utf8.emit cp) = [].
Proof.
  intros H. unfold Utf8.emit.
  destruct (cp <? 65536); cbn [filter];
    rewrite !printable_high by div_lia; reflexivity.
Qed.

Lemma lead_printable n :
  n < 256 ->
  filter printable (fst (Utf8.lead n)) = filter printable [n] /\
  Utf8.in_progress (snd (Utf8.lead n)).
Proof.
  intros H. unfold Utf8.lead.
  destruct (N.leb_spec n 127); [split; [reflexivity|exact I]|].
  cbn [filter]. rewrite (printable_high n) by lia.
  destruct (N.leb_spec 194 n), (N.leb_spec n 223); cbn [andb fst snd].
  1:{ split; [reflexivity|]. cbn. repeat split; try lia. div_lia. }
  all: destruct (N.leb_spec 224 n), (N.leb_spec n 239); cbn [andb fst snd].
  all: try (split; [reflexivity|];
            destruct (N.eqb_spec n 224), (N.eqb_spec n 237);
            cbn; repeat split; try lia; div_lia).
  all: destruct (N.leb_spec 240 n), (N.leb_spec n 244); cbn [andb fst snd].
  all: try (split; [reflexivity|];
            destruct (N.eqb_spec n 240), (N.eqb_spec n 244);
            cbn; repeat split; try lia; div_lia).
  all: cbn [filter]; rewrite printable_high by lia; split;
    [reflexivity|exact I].
Qed.

Lemma decode_from_printable bs : forall st,
  Utf8.in_progress st ->
  filter printable (Utf8.decode_from st bs)
  = filter printable (map code bs).
Proof.
  induction bs as [|b bs IH]; intros st W.
  - destruct st; reflexivity.
  - pose proof (code_bounded b) as B.
    cbn [Utf8.decode_from map].
    destruct (lead_printable (code b) B) as [L1 L2].
    destruct st as [|cp more lower upper].
    + destruct (Utf8.lead (code b)) as [out st'].
      cbn [fst snd] in L1, L2.
      change (code b :: map code bs) with ([code b] ++ map code bs).
      rewrite !filter_app, L1, (IH _ L2). reflexivity.
    + destruct W as (W1 & W2 & W3).
      destruct (N.leb_spec lower (code b)), (N.leb_spec (code b) upper);
        cbn [andb].
      1:{ cbn [filter]. rewrite (printable_high (code b)) by lia.
          destruct more as [|more].
          - rewrite filter_app, emit_not_printable, (IH Utf8.Idle I);
              [reflexivity|]. cbn [Utf8.floor] in W3. div_lia.
          - apply IH. cbn. repeat split; try lia.
            destruct more as [|[|more]]; cbn [Utf8.floor] in *; div_lia. }
      all: destruct (Utf8.lead (code b)) as [out st'];
        cbn [fst snd] in L1, L2;
        change (filter printable (65533 :: out ++ Utf8.decode_from st' bs))
          with (filter printable (out ++ Utf8.decode_from st' bs));
        change (code b :: map code bs) with ([code b] ++ map code bs);
        rewrite !filter_app, L1, (IH _ L2); reflexivity.
Qed.

Lemma toString_printable bs :
  filter printable (Utf8.toString bs) = filter printable (map code bs).
Proof. apply decode_from_printable. exact I. Qed.

(** Bytes below 0x80 decode to themselves. *)
Lemma toString_ascii bs :
  Forall (fun b => code b < 128) bs -> Utf8.toString bs = map code bs.
Proof.
  unfold Utf8.toString.
  induction 1 as [|b bs H _ IH]; [reflexivity|].
  cbn [Utf8.decode_from map]. unfold Utf8.lead.
  replace (code b <=? 127) with true by (symmetry; apply N.leb_le; lia).
  cbn [app]. f_equal. exact IH.
Qed.

End CleanUpFacts.

(** C6. For every decrypted byte sequence, the clean-up removes the NUL
    characters of the decoded text, trims the white space at both ends
    (the text splits into a white run, a middle that neither starts nor ends
    with white space, and a white run), and returns exactly the characters
    of the middle with codes 32 to 126, in their order.  Nothing it returns
    is NUL, a control character or above 126; and decoding the bytes as
    UTF-8 neither loses a byte in 32..126 nor makes one up. *)
Theorem clean_up_spec decrypted :
  exists l m r,
    remove_nul (Utf8.toString decrypted) = l ++ m ++ r /\
    Forall (fun c => is_white_space c = true) l /\
    Forall (fun c => is_white_space c = true) r /\
    (forall c, hd_error m = Some c -> is_white_space c = false) /\
    (forall c, hd_error (rev m) = Some c -> is_white_space c = false) /\
    clean_up decrypted = filter printable m /\
    (forall c, In c (clean_up decrypted) <-> In c m /\ 32 <= c <= 126) /\
    (forall c, In c (remove_nul (Utf8.toString decrypted))
               <-> In c (Utf8.toString decrypted) /\ c <> 0) /\
    filter printable (Utf8.toString decrypted)
    = filter printable (map code decrypted).
Proof.
  destruct (trim_spec (remove_nul (Utf8.toString decrypted)))
    as (l & r & E & Hl & Hr & Hh & Ht).
  exists l, (trim (remove_nul (Utf8.toString decrypted))), r.
  split; [exact E|]. split; [exact Hl|]. split; [exact Hr|].
  split; [exact Hh|]. split; [exact Ht|]. split; [reflexivity|].
  split; [|split].
  - intros c. unfold clean_up. rewrite filter_In, printable_range.
    reflexivity.
  - intros c. unfold remove_nul. rewrite filter_In, negb_true_iff, N.eqb_neq.
    reflexivity.
  - apply toString_printable.
Qed.

(* ================================================================== *)
(** * Round trip through the reference encoder *)

Section RoundTrip.

Lemma samples_are_encodings :
  Samples.junk_field
  = Reference.encode 0 (js "ABCDEFGHIJKLMNO")
      (Reference.bytes_of (js "junk###hls/abc/def.m3u8") ++ repeat x00 9) /\
  Samples.slash_field
  = Reference.encode 3 (js "ABCDEFGHIJKLMNOPQR")
      (Reference.bytes_of (js "x/hls/abc/def.m3u8") ++ repeat x00 14) /\
  Samples.bare_field
  = Reference.encode 0 (js "ABCDEFGHIJKLMNO")
      (Reference.bytes_of (js "hls/abc/def.m3u8")) /\
  Samples.padded_field
  = Reference.encode 7 (js "-framing-region-of-22-")
      (Reference.bytes_of Samples.padded_path ++ repeat x0a 10).
Proof. repeat split; vm_compute; reflexivity. Qed.

Lemma filter_none {A} (f : A -> bool) l :
  (forall x, In x l -> f x = false) -> filter f l = [].
Proof.
  induction l as [|a l IH]; intros H; [reflexivity|].
  cbn. rewrite (H a (or_introl eq_refl)). apply IH.
  intros x Hx. apply H. right. exact Hx.
Qed.

Lemma filter_all {A} (f : A -> bool) l :
  Forall (fun x => f x = true) l -> filter f l = l.
Proof.
  induction 1 as [|a l H _ IH]; [reflexivity|].
  cbn. rewrite H, IH. reflexivity.
Qed.

Lemma drop_while_In p s x : In x (drop_while p s) -> In x s.
Proof.
  induction s as [|c s IH]; [intros []|].
  cbn. destruct (p c); [intros H; right; apply IH, H|exact (fun H => H)].
Qed.

Lemma drop_while_app p a b :
  drop_while p (a ++ b) =
  match drop_while p a with
  | [] => drop_while p b
  | c :: t => (c :: t) ++ b
  end.
Proof.
  induction a as [|c a IH]; cbn.
  - destruct (drop_while p b); reflexivity.
  - destruct (p c); [exact IH|reflexivity].
Qed.

Lemma trimEnd_In s x : In x (trimEnd s) -> In x s.
Proof.
  unfold trimEnd. rewrite <- in_rev. intros H.
  apply in_rev. apply (drop_while_In _ _ _ H).
Qed.

(** A text whose last character is not white keeps it: only what follows
    is trimmed. *)
Lemma trimEnd_app a b c :
  hd_error (rev a) = Some c -> is_white_space c = false ->
  trimEnd (a ++ b) = a ++ trimEnd b.
Proof.
  intros Ha Hc. unfold trimEnd. rewrite rev_app_distr, drop_while_app.
  destruct (rev a) as [|d ra] eqn:R; [discriminate|].
  injection Ha as ->.
  assert (A : a = rev (c :: ra)) by (rewrite <- R, rev_involutive; reflexivity).
  destruct (drop_while is_white_space (rev b)) as [|e t].
  - rewrite drop_while_stop by exact Hc.
    rewrite <- A. cbn [rev]. rewrite app_nil_r. reflexivity.
  - rewrite rev_app_distr, <- A. reflexivity.
Qed.

Lemma printable_not_white c :
  printable c = true -> c <> 32 -> is_white_space c = false.
Proof.
  intros P H. apply printable_range in P. unfold is_white_space.
  settle_tests. reflexivity.
Qed.

Lemma control_not_printable c : c < 32 -> printable c = false.
Proof. intros H. unfold printable. settle_tests. reflexivity. Qed.

Lemma bytes_of_codes path :
  Forall (fun c => printable c = true) path ->
  map code (Reference.bytes_of path) = path.
Proof.
  unfold Reference.bytes_of.
  induction 1 as [|c path H _ IH]; [reflexivity|].
  cbn [map]. apply printable_range in H.
  rewrite code_of_N by lia. f_equal. exact IH.
Qed.

Lemma bytes_of_length path :
  List.length (Reference.bytes_of path) = List.length path.
Proof. apply length_map. Qed.

(** The clean-up gives back a printable path that has no space at either
    end, whatever control bytes pad it. *)
Lemma clean_up_padded path pad :
  Forall (fun c => printable c = true) path ->
  hd_error path <> Some 32 ->
  hd_error (rev path) <> Some 32 ->
  Forall (fun b => code b < 32) pad ->
  clean_up (Reference.bytes_of path ++ pad) = path.
Proof.
  intros P Hh Ht C. unfold clean_up.
  assert (Q : forall x, In x (remove_nul (map code pad)) -> printable x = false).
  { intros x Hx. apply filter_In in Hx as [Hx _].
    apply in_map_iff in Hx as (b & <- & Hb).
    rewrite Forall_forall in C. apply control_not_printable, C, Hb. }
  rewrite toString_ascii.
  2:{ apply Forall_app. split.
      - apply Forall_forall. intros b Hb.
        assert (In (code b) (map code (Reference.bytes_of path)))
          by (apply in_map, Hb).
        rewrite (bytes_of_codes _ P) in H.
        rewrite Forall_forall in P. apply P, printable_range in H. lia.
      - eapply Forall_impl; [|exact C]. cbv beta. intros b Hb. lia. }
  rewrite map_app, (bytes_of_codes _ P).
  unfold remove_nul at 1. rewrite filter_app. fold (remove_nul (map code pad)).
  rewrite (filter_all _ path).
  2:{ eapply Forall_impl; [|exact P]. cbv beta. intros c Hc.
      apply printable_range in Hc. apply negb_true_iff, N.eqb_neq. lia. }
  destruct path as [|c path'].
  - cbn [app]. apply filter_none. intros x Hx. apply Q.
    unfold trim in Hx. apply trimEnd_In in Hx.
    apply (drop_while_In _ _ _ Hx).
  - assert (Pc : printable c = true) by (inversion P; assumption).
    assert (Wc : is_white_space c = false).
    { apply (printable_not_white _ Pc). intros ->. apply Hh. reflexivity. }
    unfold trim, trimStart. cbn [app]. rewrite drop_while_stop by exact Wc.
    change (c :: path' ++ remove_nul (map code pad))
      with ((c :: path') ++ remove_nul (map code pad)).
    destruct (rev (c :: path')) as [|d rp] eqn:R.
    { apply (f_equal (@List.length _)) in R.
      rewrite length_rev in R. discriminate. }
    assert (Pd : printable d = true).
    { rewrite Forall_forall in P. apply P, in_rev. rewrite R. left.
      reflexivity. }
    rewrite (trimEnd_app _ _ d); [|rewrite R; reflexivity|].
    2:{ apply (printable_not_white _ Pd). intros ->. apply Ht. reflexivity. }
    rewrite filter_app, (filter_all _ _ P), filter_none, app_nil_r;
      [reflexivity|].
    intros x Hx. apply Q, trimEnd_In, Hx.
Qed.

(** The framing: the digit is read back and exactly the payload is cut
    out. *)
Lemma encode_offset offset framing plaintext :
  offset <= 9 ->
  parseInt (index0 (Reference.encode offset framing plaintext))
  = Some (Z.of_N offset).
Proof.
  intros H. unfold Reference.encode. cbn [index0].
  rewrite parseInt_single. unfold is_digit. settle_tests.
  cbn [andb]. f_equal. lia.
Qed.

Lemma encode_payload offset framing plaintext :
  List.length framing = (N.to_nat offset + 15)%nat ->
  ciphertext_of (Z.of_N offset) (Reference.encode offset framing plaintext)
  = Reference.encrypt plaintext.
Proof.
  intros L. unfold ciphertext_of, ciphertext_with, Reference.encode.
  replace (Z.of_N offset + 16)%Z
    with (Z.of_nat (S (List.length framing))) by lia.
  rewrite substring_nat. cbn [skipn].
  rewrite skipn_app, skipn_all, PeanoNat.Nat.sub_diag. cbn [skipn app].
  apply from_base64_unpadded.
Qed.

End RoundTrip.

(** C2, as the specification states it, fails.  The field below is the
    reference encoding of the plaintext path "hls/abc/def.m3u8" (offset 0,
    fifteen framing characters, one block).  The call returns no URL at all,
    so neither the path nor the host followed by the path. *)
Lemma round_trip_counterexample :
  Samples.bare_field
  = Reference.encode 0 (js "ABCDEFGHIJKLMNO")
      (Reference.bytes_of (js "hls/abc/def.m3u8")) /\
  decryptStreamPath Samples.bare_field = ([Warn No_hls_path], Normal []) /\
  ~ yields (decryptStreamPath Samples.bare_field) (js "hls/abc/def.m3u8") /\
  ~ yields (decryptStreamPath Samples.bare_field)
      (HLS_BASE_URL ++ js "hls/abc/def.m3u8").
Proof.
  assert (E : decryptStreamPath Samples.bare_field
              = ([Warn No_hls_path], Normal []))
    by (vm_compute; reflexivity).
  split; [vm_compute; reflexivity|]. split; [exact E|].
  split; intros [H _]; rewrite E in H; discriminate.
Qed.

(** C2, amended.  Take a plaintext path of characters 32..126 that has no
    space at either end, pad it to whole blocks with bytes below 0x20, and
    let the reference encoder frame it: an offset digit N, N + 15 framing
    characters, and the unpadded base64 of the AES-128-CBC ciphertext under
    the fixed key and IV.  Then the cleaned text of the call is the path,
    exactly.  The call returns the base host followed by the part of the
    path from its first "hls/" when the path contains "/hls/" (so the host
    followed by the whole path when the path also starts with "hls/"), and
    no URL when it does not. *)
Theorem round_trip offset framing path pad :
  offset <= 9 ->
  List.length framing = (N.to_nat offset + 15)%nat ->
  Forall (fun c => printable c = true) path ->
  hd_error path <> Some 32 ->
  hd_error (rev path) <> Some 32 ->
  Forall (fun b => code b < 32) pad ->
  ((List.length path + List.length pad) mod 16 = 0)%nat ->
  rawText_of
    (Reference.encode offset framing (Reference.bytes_of path ++ pad))
  = Some path /\
  (includes (js "/hls/") path = true ->
   exists n,
     first_occurrence (js "hls/") path n /\
     decryptStreamPath
       (Reference.encode offset framing (Reference.bytes_of path ++ pad))
     = ([], Normal (HLS_BASE_URL ++ skipn n path)) /\
     (starts_with (js "hls/") path = true -> skipn n path = path)) /\
  (includes (js "/hls/") path = false ->
   decryptStreamPath
     (Reference.encode offset framing (Reference.bytes_of path ++ pad))
   = ([Warn No_hls_path], Normal [])).
Proof.
  intros Ho Lf P Hh Ht C M.
  assert (R : rawText_of
                (Reference.encode offset framing
                   (Reference.bytes_of path ++ pad)) = Some path).
  { unfold rawText_of.
    rewrite (encode_offset _ _ _ Ho), (encode_payload _ _ _ Lf).
    rewrite decrypt_encrypt
      by (rewrite length_app, bytes_of_length; exact M).
    rewrite (clean_up_padded _ _ P Hh Ht C). reflexivity. }
  split; [exact R|].
  rewrite (decryptStreamPath_rawText _ _ R).
  split.
  - intros I. destruct (extract_hls_path_first _ I) as (n & rest & F & E & D).
    exists n. split; [exact F|]. split; [rewrite E; exact D|].
    intros S. destruct n as [|n]; [reflexivity|].
    destruct F as [_ F]. specialize (F 0%nat (PeanoNat.Nat.lt_0_succ n)).
    cbn [skipn] in F. congruence.
  - intros I. apply extract_hls_path_absent, I.
Qed.

Lemma round_trip_witness :
  rawText_of Samples.padded_field = Some Samples.padded_path /\
  exists n,
    first_occurrence (js "hls/") Samples.padded_path n /\
    decryptStreamPath Samples.padded_field
    = ([], Normal (HLS_BASE_URL ++ skipn n Samples.padded_path)).
Proof.
  assert (E : Samples.padded_field
              = Reference.encode 7 (js "-framing-region-of-22-")
                  (Reference.bytes_of Samples.padded_path ++ repeat x0a 10))
    by (vm_compute; reflexivity).
  rewrite E.
  destruct (round_trip 7 (js "-framing-region-of-22-") Samples.padded_path
              (repeat x0a 10)) as (R & Yes & _).
  - vm_compute. discriminate.
  - reflexivity.
  - repeat constructor.
  - discriminate.
  - discriminate.
  - repeat constructor.
  - reflexivity.
  - split; [exact R|].
    destruct (Yes eq_refl) as (n & F & D & _).
    exists n. split; [exact F|exact D].
Defined.

(* ================================================================== *)
(** * Further properties of [decryptStreamPath] *)

Section DecodeFacts.

Lemma clean_up_printable d : Forall (fun c => printable c = true) (clean_up d).
Proof.
  apply Forall_forall. intros c H. unfold clean_up in H.
  apply filter_In in H. exact (proj2 H).
Qed.

Lemma rawText_of_printable s raw :
  rawText_of s = Some raw -> Forall (fun c => printable c = true) raw.
Proof.
  unfold rawText_of. destruct (parseInt (index0 s)); [|discriminate].
  destruct (decrypt _); [|discriminate].
  intros [= <-]. apply clean_up_printable.
Qed.

Lemma rawText_of_None s :
  rawText_of s = None -> exists w, decryptStreamPath s = ([Warn w], Normal []).
Proof.
  intros H. destruct (decryptStreamPath_outcomes s) as [(p & N & _)|W].
  - contradiction.
  - exact W.
Qed.

Lemma HLS_BASE_URL_printable :
  Forall (fun c => printable c = true) HLS_BASE_URL.
Proof. repeat constructor. Qed.

(** A successful call, taken apart. *)
Lemma decryptStreamPath_success s log u :
  decryptStreamPath s = (log, Normal u) -> u <> [] ->
  exists raw n rest,
    rawText_of s = Some raw /\
    includes (js "/hls/") raw = true /\
    first_occurrence (js "hls/") raw n /\
    skipn n raw = js "hls/" ++ rest /\
    log = [] /\ u = HLS_BASE_URL ++ js "hls/" ++ rest.
Proof.
  intros E U. destruct (rawText_of s) as [raw|] eqn:R.
  - rewrite (decryptStreamPath_rawText _ _ R) in E.
    destruct (includes (js "/hls/") raw) eqn:I.
    + destruct (extract_hls_path_first _ I) as (n & rest & F & K & D).
      rewrite D in E. injection E as <- <-.
      exists raw, n, rest. repeat split; try assumption; apply F.
    + rewrite (extract_hls_path_absent _ I) in E. injection E as <- <-.
      contradiction.
  - destruct (rawText_of_None _ R) as [w W]. rewrite W in E.
    injection E as <- <-. contradiction.
Qed.

End DecodeFacts.

(** X1. The invalid-offset warning is given for the empty string and for a
    first character that is not a digit, and for no other input. *)
Theorem invalid_offset_iff s :
  decryptStreamPath s = ([Warn Invalid_offset], Normal []) <->
  s = [] \/ exists c s', s = c :: s' /\ is_digit c = false.
Proof.
  split.
  - intros E. destruct s as [|c s']; [left; reflexivity|right].
    exists c, s'. split; [reflexivity|].
    destruct (is_digit c) eqn:D; [exfalso|reflexivity].
    assert (P : parseInt (index0 (c :: s')) = Some (Z.of_N c - 48)%Z)
      by (cbn [index0]; rewrite parseInt_single, D; reflexivity).
    rewrite (decryptStreamPath_offset _ _ P) in E.
    destruct (decrypt _) as [d|e]; [|discriminate].
    destruct (includes (js "/hls/") (clean_up d)) eqn:I.
    + rewrite (extract_hls_path_present _ I) in E. discriminate.
    + rewrite (extract_hls_path_absent _ I) in E. discriminate.
  - intros [->|(c & s' & -> & D)]; [reflexivity|].
    apply decryptStreamPath_NaN. cbn [index0].
    rewrite parseInt_single, D. reflexivity.
Qed.

(** X2. The catch branch is reached by one error only: whenever the call
    logs a decipher failure, the error is the wrong final block length, the
    first character is a digit, and the payload decodes to a number of bytes
    that is not a multiple of 16.  A bad key or IV never occurs. *)
Theorem decipher_failure_only_partial_block s e :
  In (Warn (Failed_to_decrypt e)) (fst (decryptStreamPath s)) ->
  e = ERR_WRONG_FINAL_BLOCK_LENGTH /\
  exists offset,
    parseInt (index0 s) = Some offset /\
    (List.length (ciphertext_of offset s) mod 16 <> 0)%nat.
Proof.
  intros H. destruct (parseInt (index0 s)) as [offset|] eqn:P.
  - rewrite (decryptStreamPath_offset _ _ P) in H.
    destruct (PeanoNat.Nat.eq_dec
                (List.length (ciphertext_of offset s) mod 16) 0) as [A|A].
    + exfalso. destruct (decrypt_aligned _ A) as (d & D & _).
      rewrite D in H.
      destruct (includes (js "/hls/") (clean_up d)) eqn:I.
      * rewrite (extract_hls_path_present _ I) in H. destruct H.
      * rewrite (extract_hls_path_absent _ I) in H.
        destruct H as [H|[]]. discriminate.
    + rewrite (decrypt_partial _ A) in H. destruct H as [H|[]].
      injection H as <-. split; [reflexivity|]. exists offset. auto.
  - rewrite (decryptStreamPath_NaN _ P) in H.
    destruct H as [H|[]]. discriminate.
Qed.

Lemma decipher_failure_only_partial_block_witness :
  ERR_WRONG_FINAL_BLOCK_LENGTH = ERR_WRONG_FINAL_BLOCK_LENGTH /\
  exists offset,
    parseInt (index0 Samples.ragged_field) = Some offset /\
    (List.length (ciphertext_of offset Samples.ragged_field) mod 16 <> 0)%nat.
Proof.
  apply (decipher_failure_only_partial_block Samples.ragged_field).
  vm_compute. left. reflexivity.
Defined.

(** X3. Every URL the call returns is the base host followed by "hls/" and
    more, consists of characters 32..126 only, and comes with no warning. *)
Theorem success_url_shape s log u :
  decryptStreamPath s = (log, Normal u) -> u <> [] ->
  log = [] /\
  (exists rest, u = HLS_BASE_URL ++ js "hls/" ++ rest) /\
  Forall (fun c => printable c = true) u.
Proof.
  intros E U.
  destruct (decryptStreamPath_success _ _ _ E U)
    as (raw & n & rest & R & _ & _ & K & -> & ->).
  split; [reflexivity|]. split; [exists rest; reflexivity|].
  apply Forall_app. split; [exact HLS_BASE_URL_printable|].
  rewrite <- K. pose proof (rawText_of_printable _ _ R) as P.
  rewrite <- (firstn_skipn n raw) in P. apply Forall_app in P. exact (proj2 P).
Qed.

Lemma success_url_shape_witness :
  [] = ([] : list event) /\
  (exists rest,
      HLS_BASE_URL ++ js "hls/abc/def.m3u8"
      = HLS_BASE_URL ++ js "hls/" ++ rest) /\
  Forall (fun c => printable c = true)
    (HLS_BASE_URL ++ js "hls/abc/def.m3u8").
Proof.
  apply (success_url_shape Samples.slash_field).
  - vm_compute. reflexivity.
  - discriminate.
Defined.

Section PayloadFacts.

(** Two inputs with a digit in front and the same bytes for the decipher
    end the same way. *)
Lemma decryptStreamPath_same_ciphertext s1 s2 o1 o2 :
  parseInt (index0 s1) = Some o1 ->
  parseInt (index0 s2) = Some o2 ->
  ciphertext_of o1 s1 = ciphertext_of o2 s2 ->
  decryptStreamPath s1 = decryptStreamPath s2.
Proof.
  intros P1 P2 E.
  rewrite (decryptStreamPath_offset _ _ P1), (decryptStreamPath_offset _ _ P2).
  rewrite E. reflexivity.
Qed.

Lemma parseInt_digit c s :
  is_digit c = true ->
  parseInt (index0 (c :: s)) = Some (Z.of_N c - 48)%Z.
Proof.
  intros D. cbn [index0]. rewrite parseInt_single, D. reflexivity.
Qed.

Lemma digit_range c : is_digit c = true -> 48 <= c <= 57.
Proof.
  unfold is_digit. rewrite andb_true_iff, !N.leb_le. auto.
Qed.

(** Behind a digit and its framing, the payload is what is decoded. *)
Lemma ciphertext_of_framed c f p :
  is_digit c = true ->
  List.length f = (N.to_nat (c - 48) + 15)%nat ->
  ciphertext_of (Z.of_N c - 48) (c :: f ++ p) = from_base64 (p ++ js "==").
Proof.
  intros D L. apply digit_range in D. unfold ciphertext_of, ciphertext_with.
  replace (Z.of_N c - 48 + 16)%Z with (Z.of_nat (S (List.length f))) by lia.
  rewrite substring_nat. cbn [skipn].
  rewrite skipn_app, skipn_all, PeanoNat.Nat.sub_diag. reflexivity.
Qed.

(** What follows a [=] is never looked at. *)
Lemma sextets_stop p t : sextets (p ++ 61 :: t) = sextets p.
Proof.
  induction p as [|c p IH]; [reflexivity|].
  cbn [app sextets]. rewrite IH. reflexivity.
Qed.

(** A character outside the alphabet, other than [=], is passed over. *)
Lemma sextets_skip a c b :
  unbase64 c = None -> c mod 256 <> 61 ->
  sextets (a ++ c :: b) = sextets (a ++ b).
Proof.
  intros U E. induction a as [|d a IH].
  - cbn [app sextets]. rewrite U.
    destruct (N.eqb_spec (c mod 256) 61); [contradiction|reflexivity].
  - cbn [app sextets]. rewrite IH. reflexivity.
Qed.

Lemma unbase64_url_safe c : unbase64 (Variants.url_safe c) = unbase64 c.
Proof.
  unfold Variants.url_safe.
  destruct (N.eqb_spec c 43) as [->|]; [reflexivity|].
  destruct (N.eqb_spec c 47) as [->|]; reflexivity.
Qed.

Lemma stop_url_safe c :
  (Variants.url_safe c mod 256 =? 61) = (c mod 256 =? 61).
Proof.
  unfold Variants.url_safe.
  destruct (N.eqb_spec c 43) as [->|]; [reflexivity|].
  destruct (N.eqb_spec c 47) as [->|]; reflexivity.
Qed.

Lemma sextets_url_safe p : sextets (map Variants.url_safe p) = sextets p.
Proof.
  induction p as [|c p IH]; [reflexivity|].
  cbn [map sextets]. rewrite unbase64_url_safe, stop_url_safe, IH.
  reflexivity.
Qed.

Lemma sextets_app_url_safe p q :
  sextets (map Variants.url_safe p ++ q) = sextets (p ++ q).
Proof.
  induction p as [|c p IH]; [reflexivity|].
  cbn [map app sextets]. rewrite unbase64_url_safe, stop_url_safe, IH.
  reflexivity.
Qed.

Lemma parseInt_url_safe s :
  parseInt (index0 (map Variants.url_safe s)) = parseInt (index0 s).
Proof.
  destruct s as [|c s]; [reflexivity|]. cbn [map index0].
  rewrite !parseInt_single. unfold Variants.url_safe.
  destruct (N.eqb_spec c 43) as [->|]; [reflexivity|].
  destruct (N.eqb_spec c 47) as [->|]; reflexivity.
Qed.

Lemma sextets_length s : (List.length (sextets s) <= List.length s)%nat.
Proof.
  induction s as [|c s IH]; [apply le_n|].
  cbn [sextets List.length]. destruct (unbase64 c); cbn [List.length].
  - lia.
  - destruct (c mod 256 =? 61); cbn [List.length]; lia.
Qed.

(** Four characters give at most three bytes. *)
Lemma pack_length : forall l,
  (4 * List.length (pack l) <= 3 * List.length l)%nat.
Proof.
  fix IH 1. intros [|a [|b [|c [|d l]]]]; cbn [pack List.length]; try lia.
  specialize (IH l). lia.
Qed.

Lemma substring_length k s :
  List.length (substring (Z.of_nat k) s) = (List.length s - k)%nat.
Proof. rewrite substring_nat. apply length_skipn. Qed.

Lemma substring_app k s t :
  (k <= List.length s)%nat ->
  substring (Z.of_nat k) (s ++ t) = substring (Z.of_nat k) s ++ t.
Proof.
  intros H. rewrite !substring_nat, skipn_app.
  replace (k - List.length s)%nat with 0%nat by lia. reflexivity.
Qed.

Lemma offset_nat s offset :
  parseInt (index0 s) = Some offset ->
  exists k, (offset + 16)%Z = Z.of_nat k /\ (16 <= k <= 25)%nat.
Proof.
  intros P. destruct (parseInt_index0 _ _ P) as (c & s' & _ & _ & _ & R).
  exists (Z.to_nat (offset + 16)). lia.
Qed.

Lemma index0_app s t : s <> [] -> index0 (s ++ t) = index0 s.
Proof. destruct s; [contradiction|reflexivity]. Qed.

Lemma parseInt_nonempty s offset :
  parseInt (index0 s) = Some offset -> s <> [].
Proof. intros P ->. discriminate. Qed.

End PayloadFacts.

(** X4. The framing is not interpreted: two inputs that start with a digit
    N, go on with any N + 15 characters, and end with the same payload give
    the same result, whatever the two digits and the framing characters. *)
Theorem framing_ignored c1 c2 f1 f2 p :
  is_digit c1 = true ->
  is_digit c2 = true ->
  List.length f1 = (N.to_nat (c1 - 48) + 15)%nat ->
  List.length f2 = (N.to_nat (c2 - 48) + 15)%nat ->
  decryptStreamPath (c1 :: f1 ++ p) = decryptStreamPath (c2 :: f2 ++ p).
Proof.
  intros D1 D2 L1 L2.
  apply (decryptStreamPath_same_ciphertext _ _ _ _
           (parseInt_digit _ _ D1) (parseInt_digit _ _ D2)).
  rewrite (ciphertext_of_framed _ _ _ D1 L1).
  rewrite (ciphertext_of_framed _ _ _ D2 L2). reflexivity.
Qed.

Lemma framing_ignored_witness :
  decryptStreamPath
    (48 :: js "ABCDEFGHIJKLMNO" ++ js "YzBiN+D38vBNZ+asvEw3zyq1MwOJUMePSGnBtvc3LQ4")
  = decryptStreamPath
      (51 :: js "-- another one --." ++
             js "YzBiN+D38vBNZ+asvEw3zyq1MwOJUMePSGnBtvc3LQ4").
Proof.
  apply (framing_ignored 48 51); reflexivity.
Defined.

(** X5. A call that returns a URL was given at least 22 payload characters:
    with offset N, the input is at least N + 38 characters long.  Shorter
    inputs never give a URL. *)
Theorem success_needs_a_block s offset log u :
  parseInt (index0 s) = Some offset ->
  decryptStreamPath s = (log, Normal u) ->
  u <> [] ->
  (offset + 38 <= Z.of_nat (List.length s))%Z.
Proof.
  intros P E U.
  rewrite (decryptStreamPath_offset _ _ P) in E.
  destruct (PeanoNat.Nat.eq_dec
              (List.length (ciphertext_of offset s) mod 16) 0) as [A|A].
  2:{ rewrite (decrypt_partial _ A) in E. injection E as <- <-.
      contradiction. }
  destruct (decrypt_aligned _ A) as (d & D & L). rewrite D in E.
  assert (N : d <> []).
  { intros ->. rewrite clean_up_nil in E. cbn in E. injection E as <- <-.
    contradiction. }
  assert (B : (16 <= List.length (ciphertext_of offset s))%nat).
  { destruct d; [contradiction|]. cbn [List.length] in L.
    pose proof (PeanoNat.Nat.div_mod_eq
                  (List.length (ciphertext_of offset s)) 16). lia. }
  destruct (offset_nat _ _ P) as (k & K & _).
  unfold ciphertext_of, ciphertext_with, from_base64 in B.
  rewrite sextets_pad, K in B.
  pose proof (pack_length (sextets (substring (Z.of_nat k) s))) as H1.
  pose proof (sextets_length (substring (Z.of_nat k) s)) as H2.
  rewrite substring_length in H2. lia.
Qed.

Lemma success_needs_a_block_witness :
  (3 + 38 <= Z.of_nat (List.length Samples.slash_field))%Z.
Proof.
  apply (success_needs_a_block Samples.slash_field 3 []
           (HLS_BASE_URL ++ js "hls/abc/def.m3u8")).
  - reflexivity.
  - vm_compute. reflexivity.
  - discriminate.
Defined.

(** X6. Whatever follows a [=] in the payload is ignored: appending [=]
    and any characters to an input that has its digit and framing does not
    change the result.  In particular a payload that carries its own
    padding is read like the unpadded one. *)
Theorem after_padding_ignored s offset tail :
  parseInt (index0 s) = Some offset ->
  (offset + 16 <= Z.of_nat (List.length s))%Z ->
  decryptStreamPath (s ++ 61 :: tail) = decryptStreamPath s.
Proof.
  intros P L.
  assert (P' : parseInt (index0 (s ++ 61 :: tail)) = Some offset)
    by (rewrite index0_app by exact (parseInt_nonempty _ _ P); exact P).
  apply (decryptStreamPath_same_ciphertext _ _ _ _ P' P).
  destruct (offset_nat _ _ P) as (k & K & _).
  unfold ciphertext_of, ciphertext_with, from_base64.
  rewrite K, substring_app by lia.
  rewrite <- app_assoc. cbn [app]. rewrite sextets_stop, sextets_pad.
  reflexivity.
Qed.

Lemma after_padding_ignored_witness :
  decryptStreamPath (Samples.slash_field ++ 61 :: js "= and more")
  = decryptStreamPath Samples.slash_field.
Proof.
  apply (after_padding_ignored Samples.slash_field 3).
  - reflexivity.
  - vm_compute. discriminate.
Defined.

(** X7. The URL-safe alphabet is read like the standard one: writing [-]
    for every [+] and [_] for every [/] in an input does not change the
    result. *)
Theorem url_safe_alphabet s :
  decryptStreamPath (map Variants.url_safe s) = decryptStreamPath s.
Proof.
  destruct (parseInt (index0 s)) as [offset|] eqn:P.
  - assert (P' : parseInt (index0 (map Variants.url_safe s)) = Some offset)
      by (rewrite parseInt_url_safe; exact P).
    apply (decryptStreamPath_same_ciphertext _ _ _ _ P' P).
    unfold ciphertext_of, ciphertext_with, from_base64, substring.
    rewrite skipn_map, sextets_app_url_safe. reflexivity.
  - rewrite !decryptStreamPath_NaN; [reflexivity|exact P|].
    rewrite parseInt_url_safe. exact P.
Qed.

(** X8. The decoder reads a payload character by its low byte (its code
    modulo 256).  A character whose low byte is neither in the base64
    alphabets nor [=] (a space or a line break, say) is passed over:
    removing it from the payload does not change the result.  A character
    above U+00FF whose low byte is in an alphabet is not of this kind: it
    counts as that letter. *)
Theorem payload_junk_skipped pre c post offset :
  parseInt (index0 pre) = Some offset ->
  (offset + 16 <= Z.of_nat (List.length pre))%Z ->
  unbase64 c = None ->
  c mod 256 <> 61 ->
  decryptStreamPath (pre ++ c :: post) = decryptStreamPath (pre ++ post).
Proof.
  intros P L U E.
  pose proof (parseInt_nonempty _ _ P) as N.
  assert (P1 : parseInt (index0 (pre ++ c :: post)) = Some offset)
    by (rewrite index0_app by exact N; exact P).
  assert (P2 : parseInt (index0 (pre ++ post)) = Some offset)
    by (rewrite index0_app by exact N; exact P).
  apply (decryptStreamPath_same_ciphertext _ _ _ _ P1 P2).
  destruct (offset_nat _ _ P) as (k & K & _).
  unfold ciphertext_of, ciphertext_with, from_base64.
  rewrite K, !substring_app by lia.
  rewrite <- !app_assoc. cbn [app]. rewrite sextets_skip by assumption.
  reflexivity.
Qed.

Lemma payload_junk_skipped_witness :
  decryptStreamPath
    (js "3ABCDEFGHIJKLMNOPQRYzBiN+D38vBNZ" ++ 10 ::
     js "+asvEw3zyq1MwOJUMePSGnBtvc3LQ4")
  = decryptStreamPath
      (js "3ABCDEFGHIJKLMNOPQRYzBiN+D38vBNZ" ++
       js "+asvEw3zyq1MwOJUMePSGnBtvc3LQ4").
Proof.
  apply (payload_junk_skipped _ 10 _ 3).
  - reflexivity.
  - vm_compute. discriminate.
  - reflexivity.
  - vm_compute. discriminate.
Defined.

(** X9. With automatic padding off the decipher strips nothing: it
    returns exactly when the ciphertext is a whole number of 16-byte blocks,
    and then gives back as many bytes as it got. *)
Theorem decrypt_keeps_every_block ct :
  ((List.length ct mod 16 = 0)%nat <-> exists d, decrypt ct = Normal d) /\
  forall d, decrypt ct = Normal d -> List.length d = List.length ct.
Proof.
  split; [split|].
  - intros A. destruct (decrypt_aligned _ A) as (d & D & _). eauto.
  - intros [d D].
    destruct (PeanoNat.Nat.eq_dec (List.length ct mod 16) 0) as [A|A];
      [exact A|].
    rewrite (decrypt_partial _ A) in D. discriminate.
  - intros d D.
    destruct (PeanoNat.Nat.eq_dec (List.length ct mod 16) 0) as [A|A].
    + destruct (decrypt_aligned _ A) as (d' & D' & L).
      rewrite D in D'. injection D' as <-. exact L.
    + rewrite (decrypt_partial _ A) in D. discriminate.
Qed.

(* ================================================================== *)
(** * Further properties of the clean-up and of the decipher *)

Section CleanUpBytes.

Lemma white_printable_is_space c :
  is_white_space c = true -> printable c = true -> c = 32.
Proof.
  intros W P. destruct (N.eq_dec c 32) as [E|E]; [exact E|].
  rewrite (printable_not_white _ P E) in W. discriminate.
Qed.

Lemma filter_printable_white l :
  Forall (fun c => is_white_space c = true) l ->
  Forall (eq 32) (filter printable l).
Proof.
  intros H. apply Forall_forall. intros c Hc.
  apply filter_In in Hc as [Hc P]. rewrite Forall_forall in H.
  symmetry. apply white_printable_is_space; auto.
Qed.

Lemma filter_printable_remove_nul s :
  filter printable (remove_nul s) = filter printable s.
Proof.
  unfold remove_nul. induction s as [|c s IH]; [reflexivity|].
  cbn [filter]. destruct (N.eqb_spec c 0) as [->|N]; cbn [negb filter].
  - exact IH.
  - rewrite IH. reflexivity.
Qed.

End CleanUpBytes.

(** X10. The cleaned text is the bytes 32..126 of the decrypted buffer, in
    their order, short of spaces at its two ends only: the printable bytes
    are a run of spaces, the cleaned text, and a run of spaces. *)
Theorem clean_up_printable_bytes d :
  exists l r,
    filter printable (map code d) = l ++ clean_up d ++ r /\
    Forall (eq 32) l /\ Forall (eq 32) r.
Proof.
  destruct (trim_spec (remove_nul (Utf8.toString d)))
    as (l & r & E & Hl & Hr & _ & _).
  exists (filter printable l), (filter printable r).
  split; [|split; apply filter_printable_white; assumption].
  rewrite <- toString_printable, <- filter_printable_remove_nul.
  rewrite E at 1. rewrite !filter_app. reflexivity.
Qed.

Section DecipherInverse.

Variable ks : key_schedule.

Lemma SubBytes_InvSubBytes s : SubBytes (InvSubBytes s) = s.
Proof.
  destruct s as [[[[[[a0 a1] a2] a3] [[[b0 b1] b2] b3]]
                    [[[c0 c1] c2] c3]] [[[d0 d1] d2] d3]].
  cbv [InvSubBytes SubBytes smap wmap]. rewrite !sbox_inv_sbox. reflexivity.
Qed.

Lemma ShiftRows_InvShiftRows s : ShiftRows (InvShiftRows s) = s.
Proof.
  destruct s as [[[[[[a0 a1] a2] a3] [[[b0 b1] b2] b3]]
                    [[[c0 c1] c2] c3]] [[[d0 d1] d2] d3]].
  reflexivity.
Qed.

Lemma mix_column_inv_mix_column w : mix_column (inv_mix_column w) = w.
Proof.
  destruct w as [[[a b] c] d]. unfold mix_column, inv_mix_column.
  f_equal; [f_equal; [f_equal|]|]; byte_bits.
Qed.

Lemma MixColumns_InvMixColumns s : MixColumns (InvMixColumns s) = s.
Proof.
  destruct s as [[[a b] c] d]. cbv [InvMixColumns MixColumns smap].
  rewrite !mix_column_inv_mix_column. reflexivity.
Qed.

Lemma round_inv_round k s :
  round (InvSubBytes (InvShiftRows (inv_round k s))) k
  = InvSubBytes (InvShiftRows s).
Proof.
  unfold inv_round, round.
  rewrite SubBytes_InvSubBytes, ShiftRows_InvShiftRows.
  rewrite MixColumns_InvMixColumns. apply AddRoundKey_involutive.
Qed.

Lemma rounds_inv_rounds mids : forall s,
  fold_left round mids
    (InvSubBytes (InvShiftRows (fold_right inv_round s mids)))
  = InvSubBytes (InvShiftRows s).
Proof.
  induction mids as [|k mids IH]; intros s; [reflexivity|].
  cbn [fold_left fold_right]. rewrite round_inv_round. apply IH.
Qed.

(** The cipher is the inverse of the inverse cipher as well. *)
Lemma Cipher_InvCipher s : Cipher ks (InvCipher ks s) = s.
Proof.
  unfold InvCipher, Cipher.
  rewrite AddRoundKey_involutive, rounds_inv_rounds.
  rewrite SubBytes_InvSubBytes, ShiftRows_InvShiftRows.
  apply AddRoundKey_involutive.
Qed.

(** CBC enciphering undoes CBC deciphering of whole blocks. *)
Lemma cbc_encrypt_decrypt ct : forall prev out chn,
  cbc_decrypt ks prev ct = (out, chn, []) ->
  Reference.cbc_encrypt ks prev out = ct.
Proof.
  remember (List.length ct) as n eqn:Hn. revert ct Hn.
  induction n as [n IH] using (well_founded_induction PeanoNat.Nat.lt_wf_0).
  intros ct Hn prev out chn. rewrite cbc_decrypt_eq.
  destruct (take_block ct) as [[c rest]|] eqn:E.
  - apply take_block_Some in E. subst ct n.
    destruct (cbc_decrypt ks c rest) as [[out' chn'] tail'] eqn:R.
    intros [= <- <- ->].
    rewrite cbc_encrypt_eq, take_block_app. cbv zeta.
    rewrite AddRoundKey_involutive, Cipher_InvCipher.
    f_equal. apply (IH (List.length rest)) with (chn := chn');
      [rewrite length_app, state_bytes_length; lia|reflexivity|exact R].
  - intros [= <- <- ->]. reflexivity.
Qed.

End DecipherInverse.

(** X11. The decipher loses nothing: enciphering what it returns, with
    the same key and IV, gives the ciphertext back.  So two different
    ciphertexts never decipher to the same bytes. *)
Theorem decrypt_loses_nothing ct d :
  decrypt ct = Normal d ->
  Reference.encrypt d = ct /\
  forall ct', decrypt ct' = Normal d -> ct' = ct.
Proof.
  assert (A : forall c x, decrypt c = Normal x -> Reference.encrypt x = c).
  { intros c x. rewrite decrypt_eq.
    destruct (cbc_decrypt the_schedule iv_state c) as [[out chn] tail] eqn:R.
    destruct tail; [|discriminate].
    rewrite app_nil_r. intros [= <-].
    apply (cbc_encrypt_decrypt the_schedule c iv_state out chn R). }
  intros D. split; [exact (A _ _ D)|].
  intros ct' D'. rewrite <- (A _ _ D), <- (A _ _ D'). reflexivity.
Qed.

Lemma decrypt_loses_nothing_witness :
  Reference.encrypt (Reference.bytes_of (js "hls/abc/def.m3u8"))
  = ciphertext_of 0 Samples.bare_field /\
  forall ct',
    decrypt ct' = Normal (Reference.bytes_of (js "hls/abc/def.m3u8")) ->
    ct' = ciphertext_of 0 Samples.bare_field.
Proof.
  apply (decrypt_loses_nothing (ciphertext_of 0 Samples.bare_field)).
  vm_compute. reflexivity.
Defined.

(* ================================================================== *)
(** * Further properties of the resolver *)

Section ResolverFacts.

Variable t : transport.
Variable trackId : jsstring.
Variable q : tier.

Lemma fetchStreamUrl_throw err :
  t (the_request trackId q) = Throw err ->
  fetchStreamUrl t trackId q
  = ([Post (the_request trackId q); Warn (Failed_to_fetch err)], Normal None).
Proof.
  intros T. unfold fetchStreamUrl, post. fold (the_request trackId q).
  rewrite T. reflexivity.
Qed.

Lemma fetchStreamUrl_no_path e :
  t (the_request trackId q) = Normal e ->
  success_path e = None ->
  fetchStreamUrl t trackId q = ([Post (the_request trackId q)], Normal None).
Proof.
  intros T S. unfold fetchStreamUrl, post. fold (the_request trackId q).
  rewrite T. cbn [bind try_catch]. rewrite S. reflexivity.
Qed.

Lemma fetchStreamUrl_decoded e d p u :
  t (the_request trackId q) = Normal e ->
  success_path e = Some (d, p) ->
  yields (decryptStreamPath p) u ->
  fetchStreamUrl t trackId q
  = ([Post (the_request trackId q)],
     Normal (Some {| quality := quality_string q;
                     bitRate := or_else (bit_rate d) [];
                     url := u;
                     format := or_else (track_format d) (js "mp4") |})).
Proof.
  intros T S [Y U]. unfold fetchStreamUrl, post.
  fold (the_request trackId q).
  rewrite T. cbn [bind try_catch]. rewrite S, Y.
  destruct u; [contradiction|]. reflexivity.
Qed.

Lemma fetchStreamUrl_undecoded e d p w :
  t (the_request trackId q) = Normal e ->
  success_path e = Some (d, p) ->
  decryptStreamPath p = ([Warn w], Normal []) ->
  fetchStreamUrl t trackId q
  = ([Post (the_request trackId q); Warn w], Normal None).
Proof.
  intros T S W. unfold fetchStreamUrl, post. fold (the_request trackId q).
  rewrite T. cbn [bind try_catch]. rewrite S, W. reflexivity.
Qed.

(** A returned record, taken apart. *)
Lemma fetchStreamUrl_Some log m :
  fetchStreamUrl t trackId q = (log, Normal (Some m)) ->
  exists e d p,
    t (the_request trackId q) = Normal e /\
    api_status e = Some (js "success") /\
    data e = Some d /\
    stream_path d = Some p /\
    p <> [] /\
    yields (decryptStreamPath p) (url m) /\
    quality m = quality_string q /\
    bitRate m = or_else (bit_rate d) [] /\
    format m = or_else (track_format d) (js "mp4").
Proof.
  intros E.
  destruct (t (the_request trackId q)) as [e|err] eqn:T.
  2:{ rewrite (fetchStreamUrl_throw _ T) in E. discriminate. }
  destruct (success_path e) as [[d p]|] eqn:S.
  2:{ rewrite (fetchStreamUrl_no_path _ T S) in E. discriminate. }
  destruct (decryptStreamPath_outcomes p) as [(path & _ & D)|(w & D)].
  2:{ rewrite (fetchStreamUrl_undecoded _ _ _ _ T S D) in E.
      discriminate. }
  assert (Y : yields (decryptStreamPath p) (HLS_BASE_URL ++ path))
    by (split; [exact D|discriminate]).
  rewrite (fetchStreamUrl_decoded _ _ _ _ T S Y) in E.
  injection E as _ <-.
  apply success_path_Some in S as (S1 & S2 & S3 & S4).
  exists e, d, p. repeat split; try assumption; try discriminate.
Qed.

End ResolverFacts.

(** X12. Whatever the transport does, also when it fails, one call of
    [fetchStreamUrl] returns normally, posts exactly one request, before
    anything else, for the given track and quality with format "mp4", and
    logs at most one warning. *)
Theorem fetchStreamUrl_one_request t trackId q :
  exists ws r,
    fetchStreamUrl t trackId q
    = (Post {| req_quality := q;
               req_track_id := trackId;
               req_stream_format := js "mp4" |} :: map Warn ws, Normal r) /\
    (List.length ws <= 1)%nat.
Proof.
  fold (the_request trackId q).
  destruct (t (the_request trackId q)) as [e|err] eqn:T.
  - destruct (success_path e) as [[d p]|] eqn:S.
    + destruct (decryptStreamPath_outcomes p) as [(path & _ & E)|(w & E)].
      * exists [], (Some {| quality := quality_string q;
                            bitRate := or_else (bit_rate d) [];
                            url := HLS_BASE_URL ++ path;
                            format := or_else (track_format d) (js "mp4") |}).
        split; [|cbn; lia].
        apply (fetchStreamUrl_decoded _ _ _ _ _ _ _ T S).
        split; [exact E|discriminate].
      * exists [w], None. split; [|cbn; lia].
        apply (fetchStreamUrl_undecoded _ _ _ _ _ _ _ T S E).
    + exists [], None. split; [|cbn; lia].
      apply (fetchStreamUrl_no_path _ _ _ _ T S).
  - exists [Failed_to_fetch err], None. split; [|cbn; lia].
    apply (fetchStreamUrl_throw _ _ _ _ T).
Qed.

(** X13. [fetchStreamUrl] returns a record exactly when the transport
    answers with an envelope whose status is "success" and whose stream path
    is non-empty and decodes; the record then holds the decoded URL, the
    name of the quality asked for, the bit rate or '' and the format or
    'mp4'. *)
Theorem fetchStreamUrl_returns_iff t trackId q m :
  (exists log, fetchStreamUrl t trackId q = (log, Normal (Some m))) <->
  exists e d p,
    t (the_request trackId q) = Normal e /\
    api_status e = Some (js "success") /\
    data e = Some d /\
    stream_path d = Some p /\
    p <> [] /\
    yields (decryptStreamPath p) (url m) /\
    quality m = quality_string q /\
    bitRate m = or_else (bit_rate d) [] /\
    format m = or_else (track_format d) (js "mp4").
Proof.
  split.
  - intros [log E]. exact (fetchStreamUrl_Some _ _ _ _ _ E).
  - intros (e & d & p & T & S1 & S2 & S3 & S4 & Y & Q & B & F).
    assert (S : success_path e = Some (d, p))
      by (apply success_path_Some; auto).
    rewrite (fetchStreamUrl_decoded _ _ _ _ _ _ _ T S Y).
    destruct m as [mq mb mu mf]. cbn in Q, B, F |- *. subst mq mb mf.
    eauto.
Qed.

(** X14. When the transport fails (the fetch rejects or the body is not
    the JSON expected), [fetchStreamUrl] returns null after logging that
    error; the decoder is not run. *)
Theorem fetchStreamUrl_transport_failure t trackId q err :
  t (the_request trackId q) = Throw err ->
  fetchStreamUrl t trackId q
  = ([Post (the_request trackId q); Warn (Failed_to_fetch err)], Normal None).
Proof. apply fetchStreamUrl_throw. Qed.

Lemma fetchStreamUrl_transport_failure_witness :
  fetchStreamUrl Variants.failing_transport (js "42") low
  = ([Post (the_request (js "42") low); Warn (Failed_to_fetch ERR_TRANSPORT)],
     Normal None).
Proof.
  apply (fetchStreamUrl_transport_failure Variants.failing_transport).
  reflexivity.
Defined.

(** X15. The decoder is run only on a success envelope with a non-empty
    path: when the status is not "success", or the data, the path or its
    content is missing, [fetchStreamUrl] returns null and logs nothing
    beyond its request, even if a path is there and would decode. *)
Theorem fetchStreamUrl_skips_decoder t trackId q e :
  t (the_request trackId q) = Normal e ->
  ~ (exists d p,
        api_status e = Some (js "success") /\ data e = Some d /\
        stream_path d = Some p /\ p <> []) ->
  fetchStreamUrl t trackId q = ([Post (the_request trackId q)], Normal None).
Proof.
  intros T N. apply (fetchStreamUrl_no_path _ _ _ _ T).
  destruct (success_path e) as [[d p]|] eqn:S; [|reflexivity].
  exfalso. apply N. exists d, p. apply success_path_Some, S.
Qed.

Lemma fetchStreamUrl_skips_decoder_witness :
  fetchStreamUrl Variants.refused_transport (js "42") high
  = ([Post (the_request (js "42") high)], Normal None).
Proof.
  apply (fetchStreamUrl_skips_decoder Variants.refused_transport _ _
           Variants.refused_envelope).
  - reflexivity.
  - intros (d & p & H & _). discriminate.
Defined.

(** X16. When the path of a success envelope does not decode,
    [fetchStreamUrl] returns null, and the warning of the decoder follows
    the request in the log. *)
Theorem fetchStreamUrl_decode_failure t trackId q e d p w :
  t (the_request trackId q) = Normal e ->
  api_status e = Some (js "success") ->
  data e = Some d ->
  stream_path d = Some p ->
  p <> [] ->
  decryptStreamPath p = ([Warn w], Normal []) ->
  fetchStreamUrl t trackId q
  = ([Post (the_request trackId q); Warn w], Normal None).
Proof.
  intros T S1 S2 S3 S4 W.
  apply (fetchStreamUrl_undecoded t trackId q e d p w T); [|exact W].
  apply success_path_Some. auto.
Qed.

Lemma fetchStreamUrl_decode_failure_witness :
  fetchStreamUrl Variants.junk_transport (js "42") medium
  = ([Post (the_request (js "42") medium); Warn No_hls_path], Normal None).
Proof.
  apply (fetchStreamUrl_decode_failure Variants.junk_transport _ _
           Variants.junk_envelope
           {| stream_path := Some Samples.junk_field;
              bit_rate := Some (js "64");
              track_format := Some (js "mp4_aac") |}
           Samples.junk_field).
  - reflexivity.
  - reflexivity.
  - reflexivity.
  - reflexivity.
  - discriminate.
  - vm_compute. reflexivity.
Defined.

(** X17. The defaults of a returned record: its format is the envelope's
    [track_format] when that is present and non-empty, and "mp4" otherwise;
    its bit rate is the envelope's [bit_rate] when present and non-empty,
    and the empty string otherwise. *)
Theorem media_url_defaults t trackId q log m e d :
  fetchStreamUrl t trackId q = (log, Normal (Some m)) ->
  t (the_request trackId q) = Normal e ->
  data e = Some d ->
  (track_format d = None \/ track_format d = Some [] -> format m = js "mp4") /\
  (forall f, track_format d = Some f -> f <> [] -> format m = f) /\
  (bit_rate d = None \/ bit_rate d = Some [] -> bitRate m = []) /\
  (forall b, bit_rate d = Some b -> bitRate m = b).
Proof.
  intros E T D.
  destruct (fetchStreamUrl_Some _ _ _ _ _ E)
    as (e' & d' & p & T' & _ & D' & _ & _ & _ & _ & B & F).
  rewrite T in T'. injection T' as <-.
  rewrite D in D'. injection D' as <-.
  rewrite B, F. unfold or_else. repeat split.
  - intros [->| ->]; reflexivity.
  - intros f -> N. destruct f; [contradiction|reflexivity].
  - intros [->| ->]; reflexivity.
  - intros b ->. destruct b; reflexivity.
Qed.

Lemma media_url_defaults_witness :
  exists m,
    fetchStreamUrl Variants.full_transport (js "42") high
    = ([Post (the_request (js "42") high)], Normal (Some m)) /\
    format m = js "mp4_aac" /\ bitRate m = [].
Proof.
  eexists. split; [vm_compute; reflexivity|].
  destruct (media_url_defaults Variants.full_transport (js "42") high _ _
              Variants.full_envelope
              {| stream_path := Some Samples.slash_field;
                 bit_rate := Some [];
                 track_format := Some (js "mp4_aac") |}
              ltac:(vm_compute; reflexivity) eq_refl eq_refl)
    as (_ & F & B & _).
  split.
  - apply (F (js "mp4_aac")); [reflexivity|discriminate].
  - apply B. right. reflexivity.
Defined.

Section MediaUrlsFacts.

Variable t : transport.
Variable trackId : jsstring.

(** [getMediaUrls] is one call of [fetchStreamUrl] for "high", its result
    wrapped in a list. *)
Lemma getMediaUrls_eq :
  exists log r,
    fetchStreamUrl t trackId high = (log, Normal r) /\
    getMediaUrls t trackId
    = (log, Normal match r with Some m => [m] | None => [] end).
Proof.
  unfold getMediaUrls.
  destruct (fetchStreamUrl_outcome t trackId high)
    as [(e & d & p & u & _ & _ & _ & E)|(ws & E & _)]; rewrite E.
  - eexists _, _. split; reflexivity.
  - eexists _, _. split; [reflexivity|]. cbn [bind ret].
    rewrite app_nil_r. reflexivity.
Qed.

End MediaUrlsFacts.

(** X18. [getMediaUrls] returns the empty list exactly when the transport
    does not answer the "high" request with a success envelope whose
    non-empty stream path decodes: a failed transport, a refusal and an
    undecodable path all give the empty list, not an exception. *)
Theorem getMediaUrls_empty_iff t trackId :
  (exists log, getMediaUrls t trackId = (log, Normal [])) <->
  ~ (exists e d p,
        t (the_request trackId high) = Normal e /\
        api_status e = Some (js "success") /\
        data e = Some d /\
        stream_path d = Some p /\
        p <> [] /\
        decodable p).
Proof.
  destruct (getMediaUrls_eq t trackId) as (log & r & F & G).
  rewrite G. split.
  - intros [log' E] (e & d & p & T & S1 & S2 & S3 & S4 & u & Y).
    assert (S : success_path e = Some (d, p))
      by (apply success_path_Some; auto).
    rewrite (fetchStreamUrl_decoded _ _ _ _ _ _ _ T S Y) in F.
    injection F as _ <-. discriminate.
  - intros N. destruct r as [m|]; [exfalso|eauto].
    destruct (fetchStreamUrl_Some _ _ _ _ _ F)
      as (e & d & p & T & S1 & S2 & S3 & S4 & Y & _).
    apply N. exists e, d, p. repeat split; try assumption.
    exists (url m). exact Y.
Qed.
